(** * stream-learning: the streamed upper-casing of [large-input.txt]

    A shallow embedding of [src/index.js].  The script opens a read stream
    (encoding utf8) on the input file and a write stream on the output
    file, asks [fs.stat] for the size of the input and, when that succeeds,
    pipes the read stream through a [Transform] into the write stream.  The
    transform keeps four module-level counters, upper-cases every chunk and
    logs the progress each time it has advanced by ten points.

    What Node does around the script is written out where the script relies
    on it:
    - the read stream decodes the file as UTF-8 and hands over strings that
      never end inside a character; bytes that are no UTF-8 come out as
      U+FFFD;
    - the transform is built without [decodeStrings: false], so the string
      written into it by [pipe] reaches [transform] as the [Buffer] of its
      UTF-8 encoding: [chunk.length] counts bytes and [chunk.toString()]
      decodes them;
    - [fs.createWriteStream] opens its path with flag [w];
    - numbers are IEEE 754 doubles: the byte counters are integers, which
      a double holds exactly below 2^53; the quotient
      [processedSize / totalSize] and its product with 100 are each rounded
      to the nearest double, ties to even, so that 29 bytes of 100 give
      28.999999999999996 and not 29; a division by zero gives [NaN] or
      [Infinity]. *)

From Stdlib Require Import QArith Qround Qpower Lia Lqa Sorted.
From stdpp Require Import base option list gmap strings.

(** ** Bytes, buffers and strings *)

(** A [Buffer] is a list of bytes (numbers below 256); a JavaScript string
    is given by its code points. *)
Abbreviation Buffer := (list N).
Abbreviation jsstring := (list N).

Definition REPLACEMENT : N := 0xFFFD.
Definition LF : N := 10.
Definition CR : N := 13.

Definition in_range (lo hi b : N) : bool := ((lo <=? b) && (b <=? hi))%N.

Definition is_surrogate (c : N) : bool := in_range 0xD800 0xDFFF c.

(** Unicode scalar values: what a decoded string is made of. *)
Definition is_scalar (c : N) : bool := ((c <? 0x110000)%N && negb (is_surrogate c)).

Definition utf8_bytes (c : N) : Buffer :=
  (if c <? 0x80 then [c]
   else if c <? 0x800 then [0xC0 + c / 0x40; 0x80 + c mod 0x40]
   else if c <? 0x10000 then
     [0xE0 + c / 0x1000; 0x80 + (c / 0x40) mod 0x40; 0x80 + c mod 0x40]
   else
     [0xF0 + c / 0x40000; 0x80 + (c / 0x1000) mod 0x40;
      0x80 + (c / 0x40) mod 0x40; 0x80 + c mod 0x40])%N.

(** [Buffer.from(s, 'utf8')]: a lone surrogate is written as U+FFFD. *)
Definition encode_cp (c : N) : Buffer :=
  if is_scalar c then utf8_bytes c else utf8_bytes REPLACEMENT.

Definition Buffer_from (s : jsstring) : Buffer := flat_map encode_cp s.

Definition is_cont (b : N) : bool := in_range 0x80 0xBF b.

(** [buf.toString()], the UTF-8 decoder: a well-formed sequence gives its
    code point, every maximal ill-formed part gives one U+FFFD. *)
Fixpoint utf8_decode (b : Buffer) : jsstring :=
  match b with
  | [] => []
  | b0 :: r0 =>
    if (b0 <? 0x80)%N then b0 :: utf8_decode r0
    else if in_range 0xC2 0xDF b0 then
      match r0 with
      | b1 :: r1 =>
        if is_cont b1
        then ((b0 - 0xC0) * 0x40 + (b1 - 0x80))%N :: utf8_decode r1
        else REPLACEMENT :: utf8_decode r0
      | [] => [REPLACEMENT]
      end
    else if in_range 0xE0 0xEF b0 then
      match r0 with
      | b1 :: r1 =>
        if in_range (if (b0 =? 0xE0)%N then 0xA0 else 0x80)
                    (if (b0 =? 0xED)%N then 0x9F else 0xBF) b1
        then
          match r1 with
          | b2 :: r2 =>
            if is_cont b2
            then ((b0 - 0xE0) * 0x1000 + (b1 - 0x80) * 0x40 + (b2 - 0x80))%N
                   :: utf8_decode r2
            else REPLACEMENT :: utf8_decode r1
          | [] => [REPLACEMENT]
          end
        else REPLACEMENT :: utf8_decode r0
      | [] => [REPLACEMENT]
      end
    else if in_range 0xF0 0xF4 b0 then
      match r0 with
      | b1 :: r1 =>
        if in_range (if (b0 =? 0xF0)%N then 0x90 else 0x80)
                    (if (b0 =? 0xF4)%N then 0x8F else 0xBF) b1
        then
          match r1 with
          | b2 :: r2 =>
            if is_cont b2
            then
              match r2 with
              | b3 :: r3 =>
                if is_cont b3
                then ((b0 - 0xF0) * 0x40000 + (b1 - 0x80) * 0x1000
                      + (b2 - 0x80) * 0x40 + (b3 - 0x80))%N :: utf8_decode r3
                else REPLACEMENT :: utf8_decode r2
              | [] => [REPLACEMENT]
              end
            else REPLACEMENT :: utf8_decode r1
          | [] => [REPLACEMENT]
          end
        else REPLACEMENT :: utf8_decode r0
      | [] => [REPLACEMENT]
      end
    else REPLACEMENT :: utf8_decode r0
  end.

Definition toString (chunk : Buffer) : jsstring := utf8_decode chunk.

(** [s.split(sep)] for a separator of one character. *)
Fixpoint String_split (sep : N) (s : jsstring) : list jsstring :=
  match s with
  | [] => [[]]
  | c :: r =>
    if (c =? sep)%N then [] :: String_split sep r
    else
      match String_split sep r with
      | piece :: pieces => (c :: piece) :: pieces
      | [] => [[c]]
      end
  end.

(** How often [sep] occurs in [s]. *)
Definition occurrences (sep : N) (s : jsstring) : nat :=
  length (filter (λ c, c = sep) s).

(** ** Numbers

    A JavaScript number is an IEEE 754 double.  The values of this script
    are never negative: the counters are natural numbers, dividing by zero
    gives [NaN] (for 0/0) or [Infinity], and every other value is a
    rational that a double holds.  No negative number occurs, so there is
    one infinity. *)
Inductive number : Type :=
| NaN
| Infinity
| Num (q : Q).

Definition number_of_N (n : N) : number := Num (inject_Z (Z.of_N n)).

(** 2^e *)
Definition pow2 (e : Z) : Q := (2 ^ e)%Q.

(** floor (log2 q), for [q > 0]: the logarithms of numerator and
    denominator give it up to one. *)
Definition ilog2 (q : Q) : Z :=
  let k := (Z.log2 (Qnum q) - Z.log2 (Zpos (Qden q)))%Z in
  if Qle_bool (pow2 k) q then k else (k - 1)%Z.

(** The integer nearest to [r], and of two that are equally near the even
    one. *)
Definition roundTiesToEven (r : Q) : Z :=
  let f := Qfloor r in
  match Qcompare (r - inject_Z f) (1 # 2) with
  | Lt => f
  | Gt => (f + 1)%Z
  | Eq => if Z.even f then f else (f + 1)%Z
  end.

(** The double nearest to [x], ties to even: for [x > 0] a mantissa of 53
    bits, an integer from 2^52 to 2^53, times the power of two that brings
    [x] into that range; zero is a double, and no negative number comes
    here.  The exponent is not bounded: a quotient of byte counts and its
    product with 100 are far from the largest and from the smallest
    double. *)
Definition binary64 (x : Q) : Q :=
  let q := Qred x in
  if Qle_bool q 0 then q
  else
    let e := (ilog2 q - 52)%Z in
    Qred (inject_Z (roundTiesToEven (q / pow2 e)) * pow2 e).

Definition js_div (x y : number) : number :=
  match x, y with
  | NaN, _ | _, NaN => NaN
  | Infinity, Infinity => NaN
  | Infinity, Num _ => Infinity
  | Num _, Infinity => Num 0
  | Num a, Num b =>
    if Qeq_bool b 0 then (if Qeq_bool a 0 then NaN else Infinity)
    else Num (binary64 (a / b))
  end.

Definition js_mul (x y : number) : number :=
  match x, y with
  | NaN, _ | _, NaN => NaN
  | Infinity, Infinity => Infinity
  | Infinity, Num b => if Qeq_bool b 0 then NaN else Infinity
  | Num a, Infinity => if Qeq_bool a 0 then NaN else Infinity
  | Num a, Num b => Num (binary64 (a * b))
  end.

(** The sums of this script are of integers, which a double adds exactly
    below 2^53. *)
Definition js_add (x y : number) : number :=
  match x, y with
  | NaN, _ | _, NaN => NaN
  | Infinity, _ | _, Infinity => Infinity
  | Num a, Num b => Num (a + b)
  end.

(** [x >= y] *)
Definition js_ge (x y : number) : bool :=
  match x, y with
  | NaN, _ | _, NaN => false
  | Infinity, _ => true
  | Num _, Infinity => false
  | Num a, Num b => Qle_bool b a
  end.

Definition Math_floor (x : number) : number :=
  match x with
  | Num q => Num (inject_Z (Qfloor q))
  | other => other
  end.

(** The integer a number stands for, when it is one. *)
Definition int (z : Z) : number := Num (inject_Z z).

(** ** The module-level variables and the console *)

(** [totalSize], [processedSize], [lastLoggedProgress] and [processedLines]
    of the script ([lineCount] is never used, [startTime] only feeds the
    elapsed time, which is not modelled). *)
Record RunState : Type := mkRunState {
  totalSize : N;
  processedSize : N;
  lastLoggedProgress : number;
  processedLines : N
}.

(** One constructor per message the script prints.  Reads and writes of
    files that are there do not fail in this model, so the handler of
    [error] never prints its message. *)
Inductive event : Type :=
| ErrStat                                  (* console.error: fs.stat failed *)
| LogProgress (percent : number) (lines : N)
| LogComplete                              (* finish: transformation complete *)
| LogTotalLines (lines : N)                (* finish: total of lines *)
| LogElapsed                               (* finish: elapsed time *)
| ErrTransform.                            (* console.error of the error handler *)

(** The percentages of the progress messages, in the order printed. *)
Definition reports (log : list event) : list number :=
  flat_map (λ e, match e with LogProgress p _ => [p] | _ => [] end) log.

Definition is_error (e : event) : bool :=
  match e with ErrStat | ErrTransform => true | _ => false end.

Definition is_complete (e : event) : bool :=
  match e with LogComplete => true | _ => false end.

(** ** The file system *)

Definition inputFile : string := "large-input.txt".
Definition outputFile : string := "large-output.txt".

(** [fs.createWriteStream(path)]: flag [w] creates the file, or empties the
    one that is there. *)
Definition createWriteStream (path : string) (fs : gmap string Buffer)
  : gmap string Buffer :=
  <[path := []]> fs.

(** [fs.stat(path)]: the size in bytes, or an error for a missing file. *)
Definition stat (path : string) (fs : gmap string Buffer) : option N :=
  (λ content, N.of_nat (length content)) <$> fs !! path.

(** A write of the stream opened on [path]: the data goes after what the
    stream has written so far. *)
Definition write (path : string) (data : Buffer) (fs : gmap string Buffer)
  : gmap string Buffer :=
  <[path := default [] (fs !! path) ++ data]> fs.

(** The chunks the read stream emits for a decoded text: [cuts] gives the
    number of characters of each chunk in turn (the reads of the file decide
    them), what is left after the last cut is one more chunk.  No chunk is
    empty. *)
Fixpoint readChunks (cuts : list positive) (s : jsstring) : list jsstring :=
  match s with
  | [] => []
  | _ :: _ =>
    match cuts with
    | [] => [s]
    | n :: cuts' =>
      take (Pos.to_nat n) s :: readChunks cuts' (drop (Pos.to_nat n) s)
    end
  end.

Record World : Type := mkWorld {
  files : gmap string Buffer;
  console : list event;
  vars : RunState
}.

(** A table to run examples with: no character beyond ASCII has another
    upper-case form in it. *)
Definition ascii_only (c : N) : list N := [c].

(** The four letters [abcd]. *)
Definition abcd : Buffer := [97; 98; 99; 100]%N.

(** The four bytes of [caf] and e acute in ISO 8859-1: no UTF-8, the last
    byte opens a sequence that does not follow. *)
Definition cafe_latin1 : Buffer := [99; 97; 102; 233]%N.

Section Script.

(** [String.prototype.toUpperCase] maps every code point by the Unicode
    table of upper-case mappings, which knows no context.  The table is the
    platform's: its ASCII part is written out, the rest is any function. *)
Variable Uppercase_Mapping : N → list N.

Definition upper_ascii (c : N) : N :=
  if in_range 0x61 0x7A c then (c - 0x20)%N else c.

Definition toUppercase (c : N) : list N :=
  if (c <? 0x80)%N then [upper_ascii c] else Uppercase_Mapping c.

Definition toUpperCase (s : jsstring) : jsstring := flat_map toUppercase s.

(** ** The transform (index.js, lines 34 to 55)

    The result is the new value of the variables, the chunk handed to
    [callback], and what was logged. *)
Definition transform (chunk : Buffer) (st : RunState)
  : RunState * jsstring * list event :=
  let processedSize' := (processedSize st + N.of_nat (length chunk))%N in
  let processedLines' :=
    (processedLines st
     + (N.of_nat (length (String_split LF (toString chunk))) - 1))%N in
  let upperCaseChunk := toUpperCase (toString chunk) in
  let progress :=
    js_mul (js_div (number_of_N processedSize') (number_of_N (totalSize st)))
           (Num 100) in
  if js_ge progress (js_add (lastLoggedProgress st) (Num 10)) then
    (mkRunState (totalSize st) processedSize' (Math_floor progress)
                processedLines',
     upperCaseChunk,
     [LogProgress (Math_floor progress) processedLines'])
  else
    (mkRunState (totalSize st) processedSize' (lastLoggedProgress st)
                processedLines',
     upperCaseChunk,
     []).

(** One chunk of the read stream through the pipe: [pipe] writes the string
    into the transform, which receives its UTF-8 buffer; the string the
    transform hands on goes to the write stream as UTF-8. *)
Definition pipe_chunk (s : jsstring) (w : World) : World :=
  let '(st, upperCaseChunk, logged) := transform (Buffer_from s) (vars w) in
  mkWorld (write outputFile (Buffer_from upperCaseChunk) (files w))
          (console w ++ logged)
          st.

Fixpoint pipe (chunks : list jsstring) (w : World) : World :=
  match chunks with
  | [] => w
  | s :: rest => pipe rest (pipe_chunk s w)
  end.

(** The handler of [finish]. *)
Definition on_finish (w : World) : World :=
  mkWorld (files w)
          (console w
           ++ [LogComplete; LogTotalLines (processedLines (vars w)); LogElapsed])
          (vars w).

(** The text the read stream decodes from a file. *)
Definition createReadStream (path : string) (fs : gmap string Buffer)
  : jsstring :=
  utf8_decode (default [] (fs !! path)).

(** The world when the callback of [fs.stat] has set [totalSize]. *)
Definition start (size : N) (fs : gmap string Buffer) : World :=
  mkWorld fs [] (mkRunState size 0 (Num 0) 0).

(** The script: the streams are made first (lines 10 and 13), then the
    variables, then [fs.stat] and its callback. *)
Definition main (cuts : list positive) (fs : gmap string Buffer) : World :=
  let text := createReadStream inputFile fs in
  let fs' := createWriteStream outputFile fs in
  match stat inputFile fs' with
  | None => mkWorld fs' [ErrStat] (mkRunState 0 0 (Num 0) 0)
  | Some size => on_finish (pipe (readChunks cuts text) (start size fs'))
  end.

(** The world of a run on an input of [size] bytes when the first [k]
    chunks have gone through the pipe. *)
Definition after_chunks (k : nat) (cuts : list positive)
    (fs : gmap string Buffer) (size : N) : World :=
  pipe (take k (readChunks cuts (createReadStream inputFile fs)))
       (start size (createWriteStream outputFile fs)).

(** ** What the statements below speak of *)

(** The example input of twelve bytes, [hello], line feed, [world], line
    feed, and the same in capitals. *)
Definition hello_world : Buffer :=
  [104; 101; 108; 108; 111; 10; 119; 111; 114; 108; 100; 10]%N.
Definition HELLO_WORLD : Buffer :=
  [72; 69; 76; 76; 79; 10; 87; 79; 82; 76; 68; 10]%N.

(** A text of Unicode scalar values: what a UTF-8 file holds. *)
Definition well_formed (s : jsstring) : bool := forallb is_scalar s.

(** floor (100 * processed / total) in exact arithmetic, for a total that
    is not zero. *)
Definition percent (processed total : N) : Z :=
  (100 * Z.of_N processed / Z.of_N total)%Z.

(** The progress of line 46, computed from the variables as they stand. *)
Definition progress (st : RunState) : number :=
  js_mul (js_div (number_of_N (processedSize st)) (number_of_N (totalSize st)))
         (Num 100).

(** The floor of the progress as the script computes it, in doubles, on a
    total that is not zero: the percentage a message carries. *)
Definition reached (processed total : N) : Z :=
  Qfloor (binary64 (binary64 (inject_Z (Z.of_N processed)
                              / inject_Z (Z.of_N total)) * 100)).

(** Every value is at least ten above the one before it, [last] first. *)
Fixpoint ascending (last : Z) (vs : list Z) : Prop :=
  match vs with
  | [] => True
  | v :: vs' => (last + 10 ≤ v)%Z ∧ ascending v vs'
  end.

Definition is_progress (e : event) : bool :=
  match e with LogProgress _ _ => true | _ => false end.

(** The numbers of lines of the progress messages, in the order printed. *)
Definition reported_lines (log : list event) : list N :=
  flat_map (λ e, match e with LogProgress _ n => [n] | _ => [] end) log.

(** Bytes of ASCII alone. *)
Definition ascii_bytes (b : Buffer) : bool := forallb (λ c, (c <? 0x80)%N) b.

(** The [n] tens that follow [l]: [l + 10], [l + 20], and so on. *)
Fixpoint decades (l : Z) (n : nat) : list Z :=
  match n with
  | O => []
  | S n' => (l + 10)%Z :: decades (l + 10) n'
  end.

(** ** Facts

    *** Ranges and the decoder, sequence by sequence *)

Lemma in_range_true lo hi b : (lo <= b)%N → (b <= hi)%N → in_range lo hi b = true.
Proof.
  intros H1 H2. unfold in_range.
  apply andb_true_intro; split; apply N.leb_le; assumption.
Qed.

Lemma in_range_false lo hi b : (b < lo)%N ∨ (hi < b)%N → in_range lo hi b = false.
Proof.
  intros H. unfold in_range. apply andb_false_iff.
  destruct H; [left | right]; apply N.leb_gt; assumption.
Qed.

Lemma in_range_spec lo hi b : in_range lo hi b = true ↔ (lo <= b)%N ∧ (b <= hi)%N.
Proof.
  unfold in_range. rewrite andb_true_iff, !N.leb_le. reflexivity.
Qed.

Lemma utf8_decode_1 b0 r :
  (b0 < 0x80)%N → utf8_decode (b0 :: r) = b0 :: utf8_decode r.
Proof.
  intros H. cbn [utf8_decode].
  destruct (N.ltb_spec b0 0x80); [reflexivity | lia].
Qed.

Lemma utf8_decode_2 b0 b1 r :
  (0xC2 <= b0)%N → (b0 <= 0xDF)%N → (0x80 <= b1)%N → (b1 <= 0xBF)%N →
  utf8_decode (b0 :: b1 :: r)
  = ((b0 - 0xC0) * 0x40 + (b1 - 0x80))%N :: utf8_decode r.
Proof.
  intros H1 H2 H3 H4. cbn [utf8_decode].
  destruct (N.ltb_spec b0 0x80); [lia |].
  rewrite (in_range_true 0xC2 0xDF b0) by assumption.
  unfold is_cont. rewrite (in_range_true 0x80 0xBF b1) by assumption.
  reflexivity.
Qed.

Lemma utf8_decode_3 b0 b1 b2 r :
  (0xE0 <= b0)%N → (b0 <= 0xEF)%N →
  ((if (b0 =? 0xE0)%N then 0xA0 else 0x80) <= b1)%N →
  (b1 <= (if (b0 =? 0xED)%N then 0x9F else 0xBF))%N →
  (0x80 <= b2)%N → (b2 <= 0xBF)%N →
  utf8_decode (b0 :: b1 :: b2 :: r)
  = ((b0 - 0xE0) * 0x1000 + (b1 - 0x80) * 0x40 + (b2 - 0x80))%N
      :: utf8_decode r.
Proof.
  intros H1 H2 H3 H4 H5 H6. cbn [utf8_decode].
  destruct (N.ltb_spec b0 0x80); [lia |].
  rewrite (in_range_false 0xC2 0xDF b0) by lia.
  rewrite (in_range_true 0xE0 0xEF b0) by assumption.
  rewrite in_range_true by assumption.
  unfold is_cont. rewrite (in_range_true 0x80 0xBF b2) by assumption.
  reflexivity.
Qed.

Lemma utf8_decode_4 b0 b1 b2 b3 r :
  (0xF0 <= b0)%N → (b0 <= 0xF4)%N →
  ((if (b0 =? 0xF0)%N then 0x90 else 0x80) <= b1)%N →
  (b1 <= (if (b0 =? 0xF4)%N then 0x8F else 0xBF))%N →
  (0x80 <= b2)%N → (b2 <= 0xBF)%N → (0x80 <= b3)%N → (b3 <= 0xBF)%N →
  utf8_decode (b0 :: b1 :: b2 :: b3 :: r)
  = ((b0 - 0xF0) * 0x40000 + (b1 - 0x80) * 0x1000
     + (b2 - 0x80) * 0x40 + (b3 - 0x80))%N :: utf8_decode r.
Proof.
  intros H1 H2 H3 H4 H5 H6 H7 H8. cbn [utf8_decode].
  destruct (N.ltb_spec b0 0x80); [lia |].
  rewrite (in_range_false 0xC2 0xDF b0) by lia.
  rewrite (in_range_false 0xE0 0xEF b0) by lia.
  rewrite (in_range_true 0xF0 0xF4 b0) by assumption.
  rewrite in_range_true by assumption.
  unfold is_cont.
  rewrite (in_range_true 0x80 0xBF b2) by assumption.
  rewrite (in_range_true 0x80 0xBF b3) by assumption.
  reflexivity.
Qed.

Lemma is_scalar_spec c :
  is_scalar c = true ↔ (c < 0xD800)%N ∨ ((0xDFFF < c)%N ∧ (c < 0x110000)%N).
Proof.
  unfold is_scalar, is_surrogate, in_range.
  rewrite andb_true_iff, negb_true_iff, andb_false_iff, N.ltb_lt, !N.leb_gt.
  lia.
Qed.

Ltac div_lia := zify; Z.to_euclidean_division_equations; lia.

Lemma utf8_decode_bytes (c : N) (r : Buffer) :
  is_scalar c = true → utf8_decode (utf8_bytes c ++ r) = c :: utf8_decode r.
Proof.
  intros Hc%is_scalar_spec. unfold utf8_bytes.
  destruct (N.ltb_spec c 0x80) as [H1|H1].
  { apply utf8_decode_1. assumption. }
  destruct (N.ltb_spec c 0x800) as [H2|H2].
  { cbn [app]. rewrite utf8_decode_2 by div_lia. f_equal. div_lia. }
  destruct (N.ltb_spec c 0x10000) as [H3|H3].
  { cbn [app]. rewrite utf8_decode_3.
    - f_equal. div_lia.
    - div_lia.
    - div_lia.
    - destruct (N.eqb_spec (0xE0 + c / 0x1000) 0xE0); div_lia.
    - destruct (N.eqb_spec (0xE0 + c / 0x1000) 0xED); div_lia.
    - div_lia.
    - div_lia. }
  cbn [app]. rewrite utf8_decode_4.
  - f_equal. div_lia.
  - div_lia.
  - div_lia.
  - destruct (N.eqb_spec (0xF0 + c / 0x40000) 0xF0); div_lia.
  - destruct (N.eqb_spec (0xF0 + c / 0x40000) 0xF4); div_lia.
  - div_lia.
  - div_lia.
  - div_lia.
  - div_lia.
Qed.

(** *** The UTF-8 codec *)

Lemma well_formed_cons c s :
  well_formed (c :: s) = true ↔ is_scalar c = true ∧ well_formed s = true.
Proof. unfold well_formed. cbn [forallb]. apply andb_true_iff. Qed.

Lemma well_formed_app s1 s2 :
  well_formed (s1 ++ s2) = true ↔ well_formed s1 = true ∧ well_formed s2 = true.
Proof.
  unfold well_formed.
  induction s1 as [|c s1 IH]; cbn [app forallb].
  - intuition.
  - rewrite !andb_true_iff, IH. intuition.
Qed.

Lemma Buffer_from_app s1 s2 :
  Buffer_from (s1 ++ s2) = Buffer_from s1 ++ Buffer_from s2.
Proof. unfold Buffer_from. apply flat_map_app. Qed.

(** Decoding what [Buffer.from] wrote gives the string back. *)
Lemma toString_Buffer_from s :
  well_formed s = true → toString (Buffer_from s) = s.
Proof.
  unfold toString.
  induction s as [|c s IH]; intros H; [reflexivity |].
  apply well_formed_cons in H as [Hc Hs].
  change (Buffer_from (c :: s)) with (encode_cp c ++ Buffer_from s).
  unfold encode_cp. rewrite Hc, utf8_decode_bytes by assumption.
  rewrite IH by assumption. reflexivity.
Qed.

Ltac range_facts :=
  repeat match goal with
  | H : in_range _ _ _ = true |- _ => apply in_range_spec in H
  | H : is_cont _ = true |- _ => unfold is_cont in H
  | H : context [(?a =? ?b)%N] |- _ => destruct (N.eqb_spec a b)
  end;
  cbv iota in *.

(** The decoder only gives scalar values, whatever the bytes. *)
Lemma utf8_decode_well_formed b : well_formed (utf8_decode b) = true.
Proof.
  remember (length b) as n eqn:Hn.
  assert (Hle : length b ≤ n) by lia. clear Hn. revert b Hle.
  induction n as [|n IH]; intros [|b0 r0] Hle; try reflexivity;
    cbn [length] in Hle; [lia |].
  assert (IH0 : well_formed (utf8_decode r0) = true) by (apply IH; lia).
  assert (Hrepl : ∀ s, well_formed s = true → well_formed (REPLACEMENT :: s) = true).
  { intros s Hs. apply well_formed_cons. split; [reflexivity | assumption]. }
  cbn [utf8_decode].
  destruct (N.ltb_spec b0 0x80) as [H0|H0].
  { apply well_formed_cons. split; [apply is_scalar_spec; lia | assumption]. }
  destruct (in_range 0xC2 0xDF b0) eqn:E2.
  { destruct r0 as [|b1 r1]; [reflexivity |].
    destruct (is_cont b1) eqn:C1; [| auto].
    apply well_formed_cons. split.
    - range_facts. apply is_scalar_spec. lia.
    - apply IH. cbn [length] in *. lia. }
  destruct (in_range 0xE0 0xEF b0) eqn:E3.
  { destruct r0 as [|b1 r1]; [reflexivity |].
    destruct (in_range _ _ b1) eqn:C1; [| auto].
    destruct r1 as [|b2 r2]; [reflexivity |].
    destruct (is_cont b2) eqn:C2.
    - apply well_formed_cons. split.
      + range_facts; apply is_scalar_spec; lia.
      + apply IH. cbn [length] in *. lia.
    - apply Hrepl, IH. cbn [length] in *. lia. }
  destruct (in_range 0xF0 0xF4 b0) eqn:E4; [| auto].
  destruct r0 as [|b1 r1]; [reflexivity |].
  destruct (in_range _ _ b1) eqn:C1; [| auto].
  destruct r1 as [|b2 r2]; [reflexivity |].
  destruct (is_cont b2) eqn:C2.
  - destruct r2 as [|b3 r3]; [reflexivity |].
    destruct (is_cont b3) eqn:C3.
    + apply well_formed_cons. split.
      * range_facts; apply is_scalar_spec; lia.
      * apply IH. cbn [length] in *. lia.
    + apply Hrepl, IH. cbn [length] in *. lia.
  - apply Hrepl, IH. cbn [length] in *. lia.
Qed.

(** *** Strings *)

Lemma occurrences_cons sep c s :
  occurrences sep (c :: s)
  = (if (c =? sep)%N then 1 else 0) + occurrences sep s.
Proof.
  unfold occurrences. rewrite filter_cons.
  destruct (N.eqb_spec c sep) as [E|E]; destruct (decide (c = sep));
    try contradiction; reflexivity.
Qed.

Lemma occurrences_app sep s1 s2 :
  occurrences sep (s1 ++ s2) = occurrences sep s1 + occurrences sep s2.
Proof. unfold occurrences. rewrite filter_app, length_app. reflexivity. Qed.

(** [s.split(sep).length - 1] counts the separators of [s]. *)
Lemma String_split_length sep s :
  length (String_split sep s) = S (occurrences sep s).
Proof.
  induction s as [|c s IH]; [reflexivity |].
  cbn [String_split]. rewrite occurrences_cons.
  destruct (N.eqb_spec c sep) as [E|E].
  - cbn [length]. rewrite IH. reflexivity.
  - destruct (String_split sep s) as [|piece pieces]; [discriminate IH |].
    cbn [length] in *. lia.
Qed.

Lemma toUpperCase_app s1 s2 :
  toUpperCase (s1 ++ s2) = toUpperCase s1 ++ toUpperCase s2.
Proof. unfold toUpperCase. apply flat_map_app. Qed.

(** *** Numbers *)

Section Rounding.
Local Open Scope Q_scope.

Lemma pow2_pos e : 0 < pow2 e.
Proof. apply Qpower_0_lt. reflexivity. Qed.

Lemma pow2_add a b : pow2 (a + b) == pow2 a * pow2 b.
Proof. apply Qpower_plus. discriminate. Qed.

Lemma pow2_le a b : (a <= b)%Z -> pow2 a <= pow2 b.
Proof. intros H. apply Qpower_le_compat_l; [assumption | discriminate]. Qed.

Lemma pow2_succ e : pow2 (e + 1) == 2 * pow2 e.
Proof. rewrite pow2_add. change (pow2 1) with 2. ring. Qed.

Lemma pow2_Z n : (0 <= n)%Z -> pow2 n == inject_Z (2 ^ n).
Proof. intros H. symmetry. apply (Zpower_Qpower 2 n H). Qed.

(** [ilog2] is the floor of the binary logarithm. *)
Lemma ilog2_spec q : 0 < q -> pow2 (ilog2 q) <= q /\ q < pow2 (ilog2 q + 1).
Proof.
  intros Hq. destruct q as [a b]. unfold ilog2. cbn [Qnum Qden].
  assert (Ha : (0 < a)%Z).
  { unfold Qlt in Hq. cbn in Hq. lia. }
  set (la := Z.log2 a). set (lb := Z.log2 (Z.pos b)).
  destruct (Z.log2_spec a Ha) as [A1 A2].
  destruct (Z.log2_spec (Z.pos b) ltac:(lia)) as [B1 B2].
  fold la in A1, A2. fold lb in B1, B2.
  assert (La : (0 <= la)%Z) by apply Z.log2_nonneg.
  assert (Lb : (0 <= lb)%Z) by apply Z.log2_nonneg.
  rewrite Zle_Qle, <- pow2_Z in A1, B1 by lia.
  rewrite <- Z.add_1_r in A2, B2.
  rewrite Zlt_Qlt, <- pow2_Z, pow2_succ in A2, B2 by lia.
  assert (E : pow2 la == pow2 (la - lb) * pow2 lb).
  { rewrite <- pow2_add. replace (la - lb + lb)%Z with la by lia. reflexivity. }
  assert (Eq : (a # b) * inject_Z (Z.pos b) == inject_Z a).
  { unfold Qeq, Qmult, inject_Z. cbn. lia. }
  pose proof (pow2_pos lb) as Plb. pose proof (pow2_pos (la - lb)) as Pk.
  pose proof (pow2_pos la) as Pla.
  set (q := a # b) in *. set (A := inject_Z a) in *.
  set (B := inject_Z (Z.pos b)) in *.
  set (PA := pow2 la) in *. set (PB := pow2 lb) in *.
  set (PK := pow2 (la - lb)) in *.
  destruct (Qle_bool PK q) eqn:T.
  - apply Qle_bool_iff in T. split; [assumption |].
    rewrite pow2_succ. fold PK.
    destruct (Qlt_le_dec q (2 * PK)) as [|C]; [assumption | exfalso].
    assert (2 * PK * PB <= q * B).
    { apply Qle_trans with (q * PB).
      - apply Qmult_le_compat_r; [assumption | lra].
      - apply Qmult_le_l; lra. }
    lra.
  - assert (T' : q < PK).
    { apply Qnot_le_lt. intros C. apply Qle_bool_iff in C. congruence. }
    split.
    + destruct (Qlt_le_dec q (pow2 (la - lb - 1))) as [C|]; [exfalso | assumption].
      assert (E1 : PK == 2 * pow2 (la - lb - 1)).
      { unfold PK. rewrite <- pow2_succ.
        replace (la - lb - 1 + 1)%Z with (la - lb)%Z by lia. reflexivity. }
      pose proof (pow2_pos (la - lb - 1)) as P1.
      set (P := pow2 (la - lb - 1)) in *.
      assert (q * B < P * (2 * PB)).
      { apply Qlt_le_trans with (P * B).
        - apply Qmult_lt_compat_r; lra.
        - apply Qmult_le_l; lra. }
      rewrite E1 in E. lra.
    + replace (la - lb - 1 + 1)%Z with (la - lb)%Z by lia. assumption.
Qed.

Lemma roundTiesToEven_floor r :
  (Qfloor r <= roundTiesToEven r <= Qfloor r + 1)%Z.
Proof.
  unfold roundTiesToEven.
  destruct (Qcompare _ _); [destruct (Z.even _) | |]; lia.
Qed.

(** Rounding to an integer moves a number by a half at most. *)
Lemma roundTiesToEven_bounds r :
  r - (1 # 2) <= inject_Z (roundTiesToEven r)
  /\ inject_Z (roundTiesToEven r) <= r + (1 # 2).
Proof.
  unfold roundTiesToEven.
  pose proof (Qfloor_le r) as H1. pose proof (Qlt_floor r) as H2.
  rewrite inject_Z_plus in H2. change (inject_Z 1) with 1 in H2.
  set (f := Qfloor r) in *.
  destruct (Qcompare_spec (r - inject_Z f) (1 # 2)) as [E|E|E];
    [destruct (Z.even f) | |];
    rewrite ?inject_Z_plus; change (inject_Z 1) with 1; lra.
Qed.

Lemma roundTiesToEven_Z n : roundTiesToEven (inject_Z n) = n.
Proof.
  unfold roundTiesToEven. rewrite Qfloor_Z.
  destruct (Qcompare_spec (inject_Z n - inject_Z n) (1 # 2)) as [E|E|E];
    [lra | reflexivity | lra].
Qed.

Lemma roundTiesToEven_comp r s : r == s -> roundTiesToEven r = roundTiesToEven s.
Proof.
  intros H. unfold roundTiesToEven.
  rewrite (Qfloor_comp r s H).
  assert (E : (r - inject_Z (Qfloor s) ?= 1 # 2)
              = (s - inject_Z (Qfloor s) ?= 1 # 2)).
  { apply Qcompare_comp; [rewrite H |]; reflexivity. }
  rewrite E. reflexivity.
Qed.

Lemma roundTiesToEven_mono r s :
  r <= s -> (roundTiesToEven r <= roundTiesToEven s)%Z.
Proof.
  intros H.
  pose proof (Qfloor_resp_le r s H) as Hf.
  pose proof (roundTiesToEven_floor r) as Br.
  pose proof (roundTiesToEven_floor s) as Bs.
  destruct (Z.eq_dec (Qfloor r) (Qfloor s)) as [E|E]; [| lia].
  unfold roundTiesToEven in *. rewrite E in *.
  set (f := Qfloor s) in *.
  destruct (Qcompare_spec (r - inject_Z f) (1 # 2)) as [E1|E1|E1];
    destruct (Qcompare_spec (s - inject_Z f) (1 # 2)) as [E2|E2|E2];
    try destruct (Z.even f); try lia; exfalso; lra.
Qed.

(** The double of a positive rational: the rounded mantissa, of 53 bits,
    times the power of two. *)
Lemma binary64_spec x :
  0 < x ->
  exists e,
    binary64 x == inject_Z (roundTiesToEven (x / pow2 e)) * pow2 e
    /\ pow2 (e + 52) <= x /\ x < pow2 (e + 53).
Proof.
  intros Hx. unfold binary64.
  pose proof (Qred_correct x) as Hr.
  assert (Hq : 0 < Qred x) by (rewrite Hr; assumption).
  destruct (Qle_bool (Qred x) 0) eqn:T.
  { apply Qle_bool_iff in T. lra. }
  destruct (ilog2_spec _ Hq) as [L1 L2].
  set (l := ilog2 (Qred x)) in *.
  exists (l - 52)%Z. rewrite Qred_correct.
  replace (l - 52 + 52)%Z with l by lia.
  replace (l - 52 + 53)%Z with (l + 1)%Z by lia.
  rewrite <- Hr at 3 4. split; [| split; assumption].
  rewrite (roundTiesToEven_comp (Qred x / pow2 (l - 52)) (x / pow2 (l - 52))).
  - reflexivity.
  - rewrite Hr. reflexivity.
Qed.

(** Equal rationals have the same double. *)
Lemma binary64_comp x y : x == y -> binary64 x = binary64 y.
Proof. intros H. unfold binary64. rewrite (Qred_complete x y H). reflexivity. Qed.

Lemma binary64_0 x : x == 0 -> binary64 x = 0.
Proof. intros H. rewrite (binary64_comp x 0 H). reflexivity. Qed.

Lemma mantissa_bounds x e :
  pow2 (e + 52) <= x -> x < pow2 (e + 53) ->
  (2 ^ 52 <= roundTiesToEven (x / pow2 e) <= 2 ^ 53)%Z.
Proof.
  intros H1 H2. pose proof (pow2_pos e) as P.
  rewrite Z.add_comm, pow2_add in H1, H2.
  assert (L : pow2 52 <= x / pow2 e).
  { apply Qle_shift_div_l; assumption. }
  assert (U : x / pow2 e <= pow2 53).
  { apply Qle_shift_div_r; [assumption | lra]. }
  rewrite (pow2_Z 52) in L by lia. rewrite (pow2_Z 53) in U by lia.
  apply roundTiesToEven_mono in L, U.
  rewrite roundTiesToEven_Z in L, U. lia.
Qed.

(** Rounding keeps the order. *)
Lemma binary64_mono x y : 0 <= x -> x <= y -> binary64 x <= binary64 y.
Proof.
  intros Hx Hxy.
  destruct (Qlt_le_dec 0 x) as [Px|Zx].
  2: { assert (E : x == 0) by lra. rewrite (binary64_0 x E).
       destruct (Qlt_le_dec 0 y) as [Py|Zy].
       - destruct (binary64_spec y Py) as (e & E1 & L & U). rewrite E1.
         pose proof (mantissa_bounds y e L U) as [M _].
         pose proof (pow2_pos e).
         apply Qmult_le_0_compat; [| lra].
         change 0 with (inject_Z 0). rewrite <- Zle_Qle. lia.
       - assert (E' : y == 0) by lra. rewrite (binary64_0 y E'). lra. }
  assert (Py : 0 < y) by lra.
  destruct (binary64_spec x Px) as (ex & Ex & Lx & Ux).
  destruct (binary64_spec y Py) as (ey & Ey & Ly & Uy).
  rewrite Ex, Ey.
  pose proof (mantissa_bounds x ex Lx Ux) as Mx.
  pose proof (mantissa_bounds y ey Ly Uy) as My.
  pose proof (pow2_pos ex) as Pex. pose proof (pow2_pos ey) as Pey.
  destruct (Z.ltb_spec ey ex) as [C|C].
  { exfalso.
    assert (pow2 (ey + 53) <= pow2 (ex + 52)) by (apply pow2_le; lia). lra. }
  destruct (Z.eq_dec ex ey) as [E|E].
  - subst ey. apply Qmult_le_compat_r; [| lra].
    rewrite <- Zle_Qle. apply roundTiesToEven_mono.
    apply Qmult_le_compat_r; [assumption |].
    apply Qinv_le_0_compat. lra.
  - apply Qle_trans with (inject_Z (2 ^ 53) * pow2 ex).
    + apply Qmult_le_compat_r; [| lra]. rewrite <- Zle_Qle. lia.
    + apply Qle_trans with (inject_Z (2 ^ 52) * pow2 ey).
      * assert (H : pow2 (ex + 1) <= pow2 ey) by (apply pow2_le; lia).
        rewrite pow2_succ in H.
        change (inject_Z (2 ^ 53)) with (2 * inject_Z (2 ^ 52)).
        assert (0 < inject_Z (2 ^ 52)) by reflexivity.
        set (c := inject_Z (2 ^ 52)) in *.
        setoid_replace (2 * c * pow2 ex) with (c * (2 * pow2 ex)) using relation Qeq by ring.
        apply Qmult_le_l; assumption.
      * apply Qmult_le_compat_r; [| lra]. rewrite <- Zle_Qle. lia.
Qed.

Lemma binary64_nonneg x : 0 <= x -> 0 <= binary64 x.
Proof.
  intros H. change 0 with (binary64 0) at 1.
  apply binary64_mono; [lra | assumption].
Qed.

(** Rounding moves a number by 2^-53 of itself at most. *)
Lemma binary64_upper x : 0 <= x -> binary64 x <= x * (1 + pow2 (-53)).
Proof.
  intros Hx.
  destruct (Qlt_le_dec 0 x) as [Px|Zx].
  2: { assert (E : x == 0) by lra. rewrite (binary64_0 x E).
       pose proof (pow2_pos (-53)). rewrite E. lra. }
  destruct (binary64_spec x Px) as (e & E & L & U). rewrite E.
  pose proof (roundTiesToEven_bounds (x / pow2 e)) as [_ B].
  pose proof (pow2_pos e) as Pe.
  assert (X : x == x / pow2 e * pow2 e) by (field; lra).
  assert (H52 : pow2 52 <= x / pow2 e).
  { rewrite Z.add_comm, pow2_add in L. apply Qle_shift_div_l; assumption. }
  set (r := x / pow2 e) in *. set (m := inject_Z (roundTiesToEven r)) in *.
  rewrite X.
  setoid_replace (r * pow2 e * (1 + pow2 (-53)))
    with (r * (1 + pow2 (-53)) * pow2 e) using relation Qeq by ring.
  apply Qmult_le_compat_r; [| lra].
  change (pow2 (-53)) with (1 # 9007199254740992).
  change (pow2 52) with (4503599627370496 # 1) in H52.
  lra.
Qed.

Lemma binary64_lower x : 0 <= x -> x * (1 - pow2 (-53)) <= binary64 x.
Proof.
  intros Hx.
  destruct (Qlt_le_dec 0 x) as [Px|Zx].
  2: { assert (E : x == 0) by lra. rewrite (binary64_0 x E).
       pose proof (pow2_pos (-53)). rewrite E. lra. }
  destruct (binary64_spec x Px) as (e & E & L & U). rewrite E.
  pose proof (roundTiesToEven_bounds (x / pow2 e)) as [B _].
  pose proof (pow2_pos e) as Pe.
  assert (X : x == x / pow2 e * pow2 e) by (field; lra).
  assert (H52 : pow2 52 <= x / pow2 e).
  { rewrite Z.add_comm, pow2_add in L. apply Qle_shift_div_l; assumption. }
  set (r := x / pow2 e) in *. set (m := inject_Z (roundTiesToEven r)) in *.
  rewrite X.
  setoid_replace (r * pow2 e * (1 - pow2 (-53)))
    with (r * (1 - pow2 (-53)) * pow2 e) using relation Qeq by ring.
  apply Qmult_le_compat_r; [| lra].
  change (pow2 (-53)) with (1 # 9007199254740992).
  change (pow2 52) with (4503599627370496 # 1) in H52.
  lra.
Qed.

(** The quotient of two counters, for a total that is not zero. *)
Lemma quotient_facts (p t : N) :
  (0 < t)%N ->
  let P := inject_Z (Z.of_N p) in
  let T := inject_Z (Z.of_N t) in
  0 <= P /\ 1 <= T /\ 0 < / T /\ T * / T == 1 /\ 0 <= P / T.
Proof.
  intros Ht P T.
  assert (HP : 0 <= P).
  { unfold P. change 0 with (inject_Z 0). rewrite <- Zle_Qle. lia. }
  assert (HT : 1 <= T).
  { unfold T. change 1 with (inject_Z 1). rewrite <- Zle_Qle. lia. }
  assert (HI : 0 < / T) by (apply Qinv_lt_0_compat; lra).
  split; [assumption |]. split; [assumption |]. split; [assumption |].
  split; [apply Qmult_inv_r; lra |].
  unfold Qdiv. apply Qmult_le_0_compat; lra.
Qed.

(** What the doubles add to the exact progress, and what they take from
    it: 2^-52 of it and a little, at most. *)
Lemma progress_bounds (p t : N) :
  (0 < t)%N ->
  let x := inject_Z (Z.of_N p) / inject_Z (Z.of_N t) * 100 in
  let q := binary64 (binary64 (inject_Z (Z.of_N p) / inject_Z (Z.of_N t)) * 100) in
  x * (1 - pow2 (-53)) * (1 - pow2 (-53)) <= q
  /\ q <= x * (1 + pow2 (-53)) * (1 + pow2 (-53)).
Proof.
  intros Ht x q.
  destruct (quotient_facts p t Ht) as (_ & _ & _ & _ & Hx).
  set (a := inject_Z (Z.of_N p) / inject_Z (Z.of_N t)) in *.
  pose proof (binary64_upper a Hx) as U1.
  pose proof (binary64_lower a Hx) as L1.
  pose proof (binary64_nonneg a Hx) as N1.
  assert (N2 : 0 <= binary64 a * 100) by lra.
  pose proof (binary64_upper _ N2) as U2.
  pose proof (binary64_lower _ N2) as L2.
  fold q in U2, L2. unfold x.
  change (pow2 (-53)) with (1 # 9007199254740992) in *.
  split; lra.
Qed.

End Rounding.

Lemma Qeq_bool_inject_Z_0 z : Qeq_bool (inject_Z z) 0 = (z =? 0)%Z.
Proof.
  unfold Qeq_bool, inject_Z. cbn [Qnum Qden].
  rewrite Z.mul_1_r. reflexivity.
Qed.

(** The progress of the script, for a total that is not zero. *)
Lemma progress_Num (p t : N) :
  (0 < t)%N →
  js_mul (js_div (number_of_N p) (number_of_N t)) (Num 100)
  = Num (binary64 (binary64 (inject_Z (Z.of_N p) / inject_Z (Z.of_N t)) * 100)).
Proof.
  intros Ht. unfold number_of_N, js_div.
  rewrite Qeq_bool_inject_Z_0.
  destruct (Z.eqb_spec (Z.of_N t) 0) as [E|E]; [lia | reflexivity].
Qed.

(** With no bytes in the file the quotient is not a number, or infinite. *)
Lemma progress_zero_total (p : N) :
  js_mul (js_div (number_of_N p) (number_of_N 0)) (Num 100)
  = if (p =? 0)%N then NaN else Infinity.
Proof.
  unfold number_of_N, js_div. rewrite !Qeq_bool_inject_Z_0.
  destruct (N.eqb_spec p 0) as [E|E].
  - subst p. reflexivity.
  - destruct (Z.eqb_spec (Z.of_N p) 0); [lia | reflexivity].
Qed.

(** The floor of the progress is what [reached] says. *)
Lemma Math_floor_progress st :
  (0 < totalSize st)%N →
  Math_floor (progress st) = int (reached (processedSize st) (totalSize st)).
Proof.
  intros Ht. unfold progress. rewrite progress_Num by assumption. reflexivity.
Qed.

(** An integer is below a rational exactly when it is below its floor. *)
Lemma Qle_bool_floor (l : Z) (q : Q) :
  Qle_bool (inject_Z l + 10) q = (l + 10 <=? Qfloor q)%Z.
Proof.
  assert (E : (inject_Z l + 10 == inject_Z (l + 10))%Q).
  { rewrite inject_Z_plus. reflexivity. }
  destruct (Z.leb_spec (l + 10) (Qfloor q)) as [H|H].
  - apply Qle_bool_iff. rewrite E.
    apply Qle_trans with (inject_Z (Qfloor q)).
    + rewrite <- Zle_Qle. assumption.
    + apply Qfloor_le.
  - destruct (Qle_bool (inject_Z l + 10) q) eqn:B; [| reflexivity].
    apply Qle_bool_iff in B. rewrite E in B.
    apply Qfloor_resp_le in B. rewrite Qfloor_Z in B. lia.
Qed.

Lemma Qfloor_lt_Z (q : Q) (n : Z) : (q < inject_Z n)%Q → (Qfloor q < n)%Z.
Proof.
  intros H. destruct (Z.ltb_spec (Qfloor q) n) as [|C]; [assumption | exfalso].
  pose proof (Qfloor_le q) as F. rewrite Zle_Qle in C. lra.
Qed.

Lemma Z_le_Qfloor (q : Q) (n : Z) : (inject_Z n <= q)%Q → (n ≤ Qfloor q)%Z.
Proof. intros H. apply Qfloor_resp_le in H. rewrite Qfloor_Z in H. exact H. Qed.

(** The progress computed does not go down when more bytes are through. *)
Lemma reached_mono (p1 p2 t : N) :
  (p1 <= p2)%N → (reached p1 t ≤ reached p2 t)%Z.
Proof.
  intros H. unfold reached. apply Qfloor_resp_le.
  assert (HT : (0 <= / inject_Z (Z.of_N t))%Q).
  { apply Qinv_le_0_compat. change 0%Q with (inject_Z 0).
    rewrite <- Zle_Qle. lia. }
  assert (H1 : (0 <= inject_Z (Z.of_N p1))%Q).
  { change 0%Q with (inject_Z 0). rewrite <- Zle_Qle. lia. }
  assert (H12 : (inject_Z (Z.of_N p1) <= inject_Z (Z.of_N p2))%Q).
  { rewrite <- Zle_Qle. lia. }
  assert (Hx : (0 <= inject_Z (Z.of_N p1) / inject_Z (Z.of_N t))%Q).
  { unfold Qdiv. apply Qmult_le_0_compat; assumption. }
  assert (Hxy : (inject_Z (Z.of_N p1) / inject_Z (Z.of_N t)
                 <= inject_Z (Z.of_N p2) / inject_Z (Z.of_N t))%Q).
  { unfold Qdiv. apply Qmult_le_compat_r; assumption. }
  pose proof (binary64_mono _ _ Hx Hxy) as M.
  pose proof (binary64_nonneg _ Hx) as N1.
  apply binary64_mono; lra.
Qed.

Lemma reached_0 (t : N) : reached 0 t = 0%Z.
Proof.
  unfold reached.
  rewrite (binary64_0 (inject_Z (Z.of_N 0) / inject_Z (Z.of_N t))).
  - reflexivity.
  - unfold Qdiv. change (inject_Z (Z.of_N 0)) with 0%Q. ring.
Qed.

(** All bytes through is 100 exactly. *)
Lemma reached_all (t : N) : (0 < t)%N → reached t t = 100%Z.
Proof.
  intros Ht. unfold reached.
  destruct (quotient_facts t t Ht) as (_ & HT & _ & E & _).
  rewrite (binary64_comp (inject_Z (Z.of_N t) / inject_Z (Z.of_N t)) 1).
  - reflexivity.
  - exact E.
Qed.

Lemma reached_le_100 (p t : N) : (p <= t)%N → (reached p t ≤ 100)%Z.
Proof.
  intros H. destruct (N.eq_dec t 0%N) as [E|E].
  { subst t. assert (p = 0%N) by lia. subst p. rewrite reached_0. lia. }
  rewrite <- (reached_all t) by lia. apply reached_mono. assumption.
Qed.

(** While fewer than 2^44 bytes are through, the doubles give the exact
    percentage or, when the rounding falls below a whole number, one
    less. *)
Lemma reached_near_percent (p t : N) :
  (0 < t)%N → (Z.of_N p < 2 ^ 44)%Z →
  (percent p t - 1 ≤ reached p t ≤ percent p t)%Z.
Proof.
  intros Ht Hp.
  destruct (quotient_facts p t Ht) as (HP & HT & HI & E & Hx).
  destruct (progress_bounds p t Ht) as [L U]. cbv zeta in L, U.
  change (pow2 (-53)) with (1 # 9007199254740992)%Q in L, U.
  fold (reached p t). unfold reached.
  set (q := binary64 _) in *.
  unfold percent.
  set (n := (100 * Z.of_N p / Z.of_N t)%Z).
  assert (Hn : (n * Z.of_N t ≤ 100 * Z.of_N p < (n + 1) * Z.of_N t)%Z).
  { unfold n.
    pose proof (Z.mul_div_le (100 * Z.of_N p) (Z.of_N t) ltac:(lia)).
    pose proof (Z.mul_succ_div_gt (100 * Z.of_N p) (Z.of_N t) ltac:(lia)).
    lia. }
  destruct Hn as [Hn1 Hn2].
  assert (Hn2' : (100 * Z.of_N p + 1 ≤ (n + 1) * Z.of_N t)%Z) by lia.
  rewrite Zle_Qle in Hn1, Hn2'.
  rewrite !inject_Z_mult in Hn1.
  rewrite inject_Z_plus, !inject_Z_mult, inject_Z_plus in Hn2'.
  change (inject_Z 100) with 100%Q in *. change (inject_Z 1) with 1%Q in *.
  assert (HP44 : (inject_Z (Z.of_N p) < 17592186044416)%Q).
  { change 17592186044416%Q with (inject_Z (2 ^ 44)). rewrite <- Zlt_Qlt. exact Hp. }
  set (P := inject_Z (Z.of_N p)) in *. set (T := inject_Z (Z.of_N t)) in *.
  set (N := inject_Z n) in *. set (y := (/ T)%Q) in *.
  unfold Qdiv in L, U. fold y in L, U.
  assert (A1 : (N <= 100 * (P * y))%Q).
  { setoid_replace N with (N * T * y)%Q using relation Qeq by (unfold y; field; lra).
    setoid_replace (100 * (P * y))%Q with (100 * P * y)%Q using relation Qeq by ring.
    apply Qmult_le_compat_r; lra. }
  assert (A2 : (100 * (P * y) + y <= N + 1)%Q).
  { setoid_replace (N + 1)%Q with ((N + 1) * T * y)%Q using relation Qeq by (unfold y; field; lra).
    setoid_replace (100 * (P * y) + y)%Q with ((100 * P + 1) * y)%Q using relation Qeq by ring.
    apply Qmult_le_compat_r; lra. }
  assert (Hy : (y <= 1)%Q).
  { rewrite <- E. fold y.
    setoid_replace y with (1 * y)%Q using relation Qeq at 1 by ring.
    apply Qmult_le_compat_r; lra. }
  set (c := (100 * (2 * (1 # 9007199254740992)
                    + (1 # 9007199254740992) * (1 # 9007199254740992)))%Q).
  assert (A3 : (c * (P * y) < y)%Q).
  { setoid_replace (c * (P * y))%Q with (c * P * y)%Q using relation Qeq by ring.
    setoid_replace y with (1 * y)%Q using relation Qeq at 2 by ring.
    apply Qmult_lt_compat_r; [assumption |]. unfold c. lra. }
  unfold c in A3. clear c.
  assert (Ha : (0 <= P * y)%Q) by (apply Qmult_le_0_compat; lra).
  set (a := (P * y)%Q) in *.
  split.
  - apply Z_le_Qfloor. unfold Z.sub. rewrite inject_Z_plus. fold N.
    change (inject_Z (- (1))) with (- (1))%Q. lra.
  - enough (Qfloor q < n + 1)%Z by lia.
    apply Qfloor_lt_Z. rewrite inject_Z_plus. fold N. change (inject_Z 1) with 1%Q.
    lra.
Qed.


(** *** The transform *)

Lemma transform_totalSize chunk st :
  totalSize (transform chunk st).1.1 = totalSize st.
Proof. unfold transform. destruct (js_ge _ _); reflexivity. Qed.

Lemma transform_processedSize chunk st :
  processedSize (transform chunk st).1.1
  = (processedSize st + N.of_nat (length chunk))%N.
Proof. unfold transform. destruct (js_ge _ _); reflexivity. Qed.

Lemma transform_processedLines chunk st :
  processedLines (transform chunk st).1.1
  = (processedLines st + N.of_nat (occurrences LF (toString chunk)))%N.
Proof.
  unfold transform. rewrite String_split_length.
  destruct (js_ge _ _); cbn [fst processedLines]; lia.
Qed.

Lemma transform_output chunk st :
  (transform chunk st).1.2 = toUpperCase (toString chunk).
Proof. unfold transform. destruct (js_ge _ _); reflexivity. Qed.

(** The transform on a total that is not zero, in integers: [l] is the
    percentage logged last, [z] the floor of the progress computed. *)
Lemma transform_reached chunk st l :
  (0 < totalSize st)%N →
  lastLoggedProgress st = int l →
  let p := (processedSize st + N.of_nat (length chunk))%N in
  let n := (processedLines st + N.of_nat (occurrences LF (toString chunk)))%N in
  let z := reached p (totalSize st) in
  transform chunk st
  = if (l + 10 <=? z)%Z
    then (mkRunState (totalSize st) p (int z) n,
          toUpperCase (toString chunk), [LogProgress (int z) n])
    else (mkRunState (totalSize st) p (int l) n,
          toUpperCase (toString chunk), []).
Proof.
  intros Ht Hl p n z. unfold transform.
  rewrite progress_Num by assumption. rewrite Hl.
  cbn [int js_add js_ge Math_floor].
  rewrite Qle_bool_floor.
  rewrite String_split_length.
  replace (N.of_nat (S (occurrences LF (toString chunk))) - 1)%N
    with (N.of_nat (occurrences LF (toString chunk))) by lia.
  reflexivity.
Qed.

(** A percentage of at least [k] means [k] hundredths of the total. *)
Lemma percent_ge (k : Z) (p t : N) :
  (0 < t)%N → (k ≤ percent p t)%Z → (k * Z.of_N t ≤ 100 * Z.of_N p)%Z.
Proof.
  intros Ht H. unfold percent in H.
  pose proof (Z.mul_div_le (100 * Z.of_N p) (Z.of_N t) ltac:(lia)).
  nia.
Qed.

(** *** The pipe *)

Lemma pipe_chunk_eq s w :
  pipe_chunk s w
  = mkWorld
      (write outputFile (Buffer_from (transform (Buffer_from s) (vars w)).1.2)
             (files w))
      (console w ++ (transform (Buffer_from s) (vars w)).2)
      (transform (Buffer_from s) (vars w)).1.1.
Proof.
  unfold pipe_chunk.
  destruct (transform (Buffer_from s) (vars w)) as [[st up] logged].
  reflexivity.
Qed.

Lemma pipe_app chunks1 chunks2 w :
  pipe (chunks1 ++ chunks2) w = pipe chunks2 (pipe chunks1 w).
Proof.
  revert w. induction chunks1 as [|s chunks1 IH]; intros w; [reflexivity |].
  cbn [app pipe]. apply IH.
Qed.

Lemma pipe_totalSize chunks w :
  totalSize (vars (pipe chunks w)) = totalSize (vars w).
Proof.
  revert w. induction chunks as [|s chunks IH]; intros w; [reflexivity |].
  cbn [pipe]. rewrite IH, pipe_chunk_eq. cbn [vars].
  apply transform_totalSize.
Qed.

(** [processedSize] has grown by the bytes of the chunks. *)
Lemma pipe_processedSize chunks w :
  processedSize (vars (pipe chunks w))
  = (processedSize (vars w)
     + N.of_nat (length (Buffer_from (concat chunks))))%N.
Proof.
  revert w. induction chunks as [|s chunks IH]; intros w.
  - cbn. lia.
  - cbn [pipe concat]. rewrite IH, pipe_chunk_eq. cbn [vars].
    rewrite transform_processedSize, Buffer_from_app, length_app. lia.
Qed.

(** [processedLines] has grown by the line feeds of the chunks. *)
Lemma pipe_processedLines chunks w :
  well_formed (concat chunks) = true →
  processedLines (vars (pipe chunks w))
  = (processedLines (vars w) + N.of_nat (occurrences LF (concat chunks)))%N.
Proof.
  revert w. induction chunks as [|s chunks IH]; intros w Hwf.
  - cbn. lia.
  - cbn [concat] in Hwf. apply well_formed_app in Hwf as [Hs Hrest].
    cbn [pipe concat]. rewrite IH, pipe_chunk_eq by assumption. cbn [vars].
    rewrite transform_processedLines, toString_Buffer_from by assumption.
    rewrite occurrences_app. lia.
Qed.

Lemma write_lookup path data fs :
  write path data fs !! path = Some (default [] (fs !! path) ++ data).
Proof. unfold write. apply lookup_insert_eq. Qed.

Lemma write_lookup_ne path path' data (fs : gmap string Buffer) :
  path ≠ path' → write path data fs !! path' = fs !! path'.
Proof. intros H. unfold write. apply lookup_insert_ne. assumption. Qed.

(** The output file has grown by the upper-cased chunks, in order. *)
Lemma pipe_output chunks w old :
  well_formed (concat chunks) = true →
  files w !! outputFile = Some old →
  files (pipe chunks w) !! outputFile
  = Some (old ++ Buffer_from (toUpperCase (concat chunks))).
Proof.
  revert w old. induction chunks as [|s chunks IH]; intros w old Hwf Hold.
  - cbn. rewrite app_nil_r. assumption.
  - cbn [concat] in Hwf. apply well_formed_app in Hwf as [Hs Hrest].
    cbn [pipe concat].
    rewrite (IH _ (old ++ Buffer_from (toUpperCase s))); [| assumption |].
    + rewrite toUpperCase_app, Buffer_from_app, app_assoc. reflexivity.
    + rewrite pipe_chunk_eq. cbn [files].
      rewrite write_lookup, Hold, transform_output, toString_Buffer_from
        by assumption.
      reflexivity.
Qed.

Lemma pipe_other_files chunks w path :
  path ≠ outputFile → files (pipe chunks w) !! path = files w !! path.
Proof.
  intros Hne. revert w.
  induction chunks as [|s chunks IH]; intros w; [reflexivity |].
  cbn [pipe]. rewrite IH, pipe_chunk_eq. cbn [files].
  apply write_lookup_ne. congruence.
Qed.

(** *** The progress messages *)

Lemma reports_app log1 log2 : reports (log1 ++ log2) = reports log1 ++ reports log2.
Proof. unfold reports. apply flat_map_app. Qed.

Lemma ascending_lower l zs : ascending l zs → Forall (λ z, (l + 10 ≤ z)%Z) zs.
Proof.
  revert l. induction zs as [|z zs IH]; intros l H; [constructor |].
  destruct H as [Hz Hzs]. constructor; [assumption |].
  apply IH in Hzs. eapply Forall_impl; [exact Hzs |].
  cbn. intros. lia.
Qed.

Lemma ascending_sorted l zs : ascending l zs → StronglySorted Z.lt zs.
Proof.
  revert l. induction zs as [|z zs IH]; intros l H; [constructor |].
  destruct H as [Hz Hzs]. constructor; [eapply IH; eassumption |].
  apply ascending_lower in Hzs. eapply Forall_impl; [exact Hzs |].
  cbn. intros. lia.
Qed.

Lemma ascending_NoDup l zs : ascending l zs → NoDup zs.
Proof.
  revert l. induction zs as [|z zs IH]; intros l H; [constructor |].
  destruct H as [Hz Hzs]. constructor; [| eapply IH; eassumption].
  apply ascending_lower in Hzs. rewrite Forall_forall in Hzs.
  intros Hin. apply Hzs in Hin. lia.
Qed.

(** What a stretch of chunks logs, on a total that is not zero: every
    percentage is ten or more above the one before, and none is above the
    percentage reached at the end of the stretch. *)
Lemma pipe_reports chunks w l :
  (0 < totalSize (vars w))%N →
  lastLoggedProgress (vars w) = int l →
  ∃ zs l',
    reports (console (pipe chunks w)) = reports (console w) ++ map int zs
    ∧ ascending l zs
    ∧ Forall (λ z, (z ≤ reached (processedSize (vars (pipe chunks w)))
                              (totalSize (vars w)))%Z) zs
    ∧ lastLoggedProgress (vars (pipe chunks w)) = int l'.
Proof.
  revert w l. induction chunks as [|s chunks IH]; intros w l Ht Hl.
  { exists [], l. cbn. rewrite app_nil_r. auto. }
  cbn [pipe].
  pose proof (pipe_chunk_eq s w) as Hw1.
  rewrite (transform_reached _ _ l Ht Hl) in Hw1.
  set (w1 := pipe_chunk s w) in *.
  set (p := (processedSize (vars w) + N.of_nat (length (Buffer_from s)))%N) in *.
  assert (Hp : (p <= processedSize (vars (pipe chunks w1)))%N).
  { rewrite pipe_processedSize.
    enough (processedSize (vars w1) = p) by lia.
    rewrite Hw1. destruct (_ <=? _)%Z; reflexivity. }
  assert (Ht1 : totalSize (vars w1) = totalSize (vars w)).
  { rewrite Hw1. destruct (_ <=? _)%Z; reflexivity. }
  destruct (Z.leb_spec (l + 10) (reached p (totalSize (vars w)))) as [Hz|Hz].
  - destruct (IH w1 (reached p (totalSize (vars w)))) as (zs & l' & Hr & Ha & Hb & Hl');
      [lia | rewrite Hw1; reflexivity |].
    exists (reached p (totalSize (vars w)) :: zs), l'.
    repeat split; try assumption.
    + rewrite Hr, Hw1. cbn [console]. rewrite reports_app. cbn.
      rewrite <- app_assoc. reflexivity.
    + constructor.
      * apply reached_mono. assumption.
      * rewrite <- Ht1. assumption.
  - destruct (IH w1 l) as (zs & l' & Hr & Ha & Hb & Hl');
      [lia | rewrite Hw1; reflexivity |].
    exists zs, l'. repeat split; try assumption.
    + rewrite Hr, Hw1. cbn [console]. rewrite app_nil_r. reflexivity.
    + rewrite <- Ht1. assumption.
Qed.

(** A message carries the floor of the progress computed from the
    variables as the chunk leaves them. *)
Lemma transform_log_floor chunk st :
  (transform chunk st).2 = []
  ∨ (transform chunk st).2
    = [LogProgress (Math_floor (progress (transform chunk st).1.1))
                   (processedLines (transform chunk st).1.1)].
Proof.
  unfold transform, progress. destruct (js_ge _ _); [right | left]; reflexivity.
Qed.

(** Every percentage on the console was there before the stretch, or is
    the floor of the progress computed at the chunk that logged it. *)
Lemma pipe_report_origin chunks w v :
  v ∈ reports (console (pipe chunks w)) →
  v ∈ reports (console w)
  ∨ ∃ k,
      reports (console (pipe (take (S k) chunks) w))
      = reports (console (pipe (take k chunks) w)) ++ [v]
      ∧ Math_floor (progress (vars (pipe (take (S k) chunks) w))) = v.
Proof.
  revert w. induction chunks as [|s chunks IH]; intros w Hv; [left; exact Hv |].
  cbn [pipe] in Hv. destruct (IH _ Hv) as [Hin|(k & Hk & Hf)].
  - rewrite pipe_chunk_eq in Hin. cbn [console] in Hin.
    rewrite reports_app in Hin. apply elem_of_app in Hin as [Hin|Hin];
      [left; exact Hin | right].
    exists 0. cbn [firstn pipe]. rewrite take_0. cbn [pipe].
    rewrite pipe_chunk_eq. cbn [console vars].
    rewrite reports_app.
    destruct (transform_log_floor (Buffer_from s) (vars w)) as [E|E];
      rewrite E in Hin |- *; cbn in Hin.
    + apply elem_of_nil in Hin. contradiction.
    + apply list_elem_of_singleton in Hin. subst v. split; reflexivity.
  - right. exists (S k). cbn [firstn pipe]. split; assumption.
Qed.

(** *** The read stream *)

Lemma readChunks_nil cuts : readChunks cuts [] = [].
Proof. destruct cuts; reflexivity. Qed.

(** The chunks are the text, cut. *)
Lemma concat_readChunks cuts s : concat (readChunks cuts s) = s.
Proof.
  revert s. induction cuts as [|n cuts IH]; intros [|c s]; try reflexivity.
  - cbn. rewrite app_nil_r. reflexivity.
  - cbn [readChunks concat]. rewrite IH. apply take_drop.
Qed.

(** Every way of cutting a text into chunks that are not empty is the one
    of some sequence of reads. *)
Lemma readChunks_complete (chunks : list jsstring) :
  Forall (λ s, s ≠ []) chunks →
  ∃ cuts, readChunks cuts (concat chunks) = chunks.
Proof.
  induction 1 as [|s chunks Hs _ [cuts IH]].
  - exists []. reflexivity.
  - exists (Pos.of_nat (length s) :: cuts).
    destruct s as [|c s]; [contradiction |].
    assert (E : Pos.to_nat (Pos.of_nat (length (c :: s))) = length (c :: s)).
    { apply Nat2Pos.id. discriminate. }
    change (concat ((c :: s) :: chunks)) with ((c :: s) ++ concat chunks).
    change ((c :: s) ++ concat chunks) with (c :: (s ++ concat chunks)) at 1.
    cbn [readChunks]. rewrite E.
    change (c :: s ++ concat chunks) with ((c :: s) ++ concat chunks).
    rewrite take_app_length, drop_app_length, IH. reflexivity.
Qed.

(** A file that holds the UTF-8 of a text is read as that text. *)
Lemma createReadStream_text path fs text :
  well_formed text = true →
  fs !! path = Some (Buffer_from text) →
  createReadStream path fs = text.
Proof.
  intros Hwf Hfile. unfold createReadStream. rewrite Hfile.
  apply toString_Buffer_from. assumption.
Qed.

Lemma stat_createWriteStream fs :
  stat inputFile (createWriteStream outputFile fs) = stat inputFile fs.
Proof.
  unfold stat, createWriteStream. rewrite lookup_insert_ne; [reflexivity |].
  discriminate.
Qed.

Lemma stat_Some fs path content :
  fs !! path = Some content → stat path fs = Some (N.of_nat (length content)).
Proof. intros H. unfold stat. rewrite H. reflexivity. Qed.

(** *** The script as a whole *)

Lemma main_streams cuts fs size :
  stat inputFile fs = Some size →
  main cuts fs
  = on_finish (pipe (readChunks cuts (createReadStream inputFile fs))
                    (start size (createWriteStream outputFile fs))).
Proof.
  intros H. unfold main. rewrite stat_createWriteStream, H. reflexivity.
Qed.

(** The run ends when all chunks have gone through. *)
Lemma main_after_chunks cuts fs size :
  stat inputFile fs = Some size →
  main cuts fs
  = on_finish
      (after_chunks (length (readChunks cuts (createReadStream inputFile fs)))
                    cuts fs size).
Proof.
  intros H. rewrite (main_streams _ _ _ H). unfold after_chunks.
  rewrite firstn_all. reflexivity.
Qed.

Lemma after_chunks_S k cuts fs size s :
  readChunks cuts (createReadStream inputFile fs) !! k = Some s →
  after_chunks (S k) cuts fs size = pipe_chunk s (after_chunks k cuts fs size).
Proof.
  intros H. unfold after_chunks.
  rewrite (take_S_r _ _ _ H), pipe_app. reflexivity.
Qed.

Lemma after_chunks_end k cuts fs size :
  readChunks cuts (createReadStream inputFile fs) !! k = None →
  after_chunks (S k) cuts fs size = after_chunks k cuts fs size.
Proof.
  intros H%lookup_ge_None. unfold after_chunks.
  rewrite !take_ge by lia. reflexivity.
Qed.

Lemma after_chunks_totalSize k cuts fs size :
  totalSize (vars (after_chunks k cuts fs size)) = size.
Proof. unfold after_chunks. rewrite pipe_totalSize. reflexivity. Qed.

(** An input without bytes has no chunks. *)
Lemma no_bytes_no_chunks cuts fs :
  stat inputFile fs = Some 0%N →
  readChunks cuts (createReadStream inputFile fs) = [].
Proof.
  unfold stat, createReadStream. intros H.
  destruct (fs !! inputFile) as [content|]; [| discriminate].
  cbn in H. destruct content; [| discriminate].
  cbn. apply readChunks_nil.
Qed.

(** What has been logged after [k] chunks. *)
Lemma after_chunks_reports k cuts fs size :
  stat inputFile fs = Some size →
  ∃ zs,
    reports (console (after_chunks k cuts fs size)) = map int zs
    ∧ ascending 0 zs
    ∧ Forall (λ z, (z ≤ reached (processedSize (vars (after_chunks k cuts fs size)))
                              size)%Z) zs
    ∧ (zs ≠ [] → (0 < size)%N)
    ∧ ∃ l, lastLoggedProgress (vars (after_chunks k cuts fs size)) = int l.
Proof.
  intros Hstat. destruct (N.eq_dec size 0%N) as [E|E].
  - subst size. exists []. unfold after_chunks.
    rewrite (no_bytes_no_chunks _ _ Hstat), take_nil. cbn.
    repeat split; try constructor; try contradiction.
    exists 0%Z. reflexivity.
  - unfold after_chunks.
    edestruct (pipe_reports
                 (take k (readChunks cuts (createReadStream inputFile fs)))
                 (start size (createWriteStream outputFile fs)) 0)
      as (zs & l' & Hr & Ha & Hb & Hl'); [cbn; lia | reflexivity |].
    exists zs. repeat split; try assumption; [lia |]. exists l'. assumption.
Qed.

Lemma reports_on_finish w : reports (console (on_finish w)) = reports (console w).
Proof. unfold on_finish. cbn [console]. rewrite reports_app. cbn. apply app_nil_r. Qed.

(** The bytes gone through after [k] chunks are a prefix of the file. *)
Lemma after_chunks_processedSize k cuts fs text :
  well_formed text = true →
  fs !! inputFile = Some (Buffer_from text) →
  ∀ size,
  ∃ done rest,
    text = done ++ rest
    ∧ done = concat (take k (readChunks cuts text))
    ∧ processedSize (vars (after_chunks k cuts fs size))
      = N.of_nat (length (Buffer_from done)).
Proof.
  intros Hwf Hfile size.
  exists (concat (take k (readChunks cuts text))),
         (concat (drop k (readChunks cuts text))).
  repeat split.
  - rewrite <- concat_app, take_drop, concat_readChunks. reflexivity.
  - unfold after_chunks.
    rewrite (createReadStream_text _ _ _ Hwf Hfile), pipe_processedSize.
    cbn. lia.
Qed.

Lemma createReadStream_content path fs content :
  fs !! path = Some content → createReadStream path fs = toString content.
Proof. intros H. unfold createReadStream. rewrite H. reflexivity. Qed.

(** The counters at the end of a run, whatever bytes the input holds: the
    transform sees the decoded text, encoded anew. *)
Lemma main_counters cuts fs content :
  fs !! inputFile = Some content →
  totalSize (vars (main cuts fs)) = N.of_nat (length content)
  ∧ processedSize (vars (main cuts fs))
    = N.of_nat (length (Buffer_from (toString content)))
  ∧ processedLines (vars (main cuts fs))
    = N.of_nat (occurrences LF (toString content)).
Proof.
  intros Hfile.
  rewrite (main_streams _ _ _ (stat_Some _ _ _ Hfile)). cbn [on_finish vars].
  rewrite pipe_totalSize, pipe_processedSize, pipe_processedLines;
    rewrite (createReadStream_content _ _ _ Hfile), concat_readChunks.
  - cbn. repeat split; lia.
  - apply utf8_decode_well_formed.
Qed.

(** Carriage returns are no line feeds. *)
Lemma occurrences_without_CR s :
  occurrences LF (filter (λ c, c ≠ CR) s) = occurrences LF s.
Proof.
  induction s as [|c s IH]; [reflexivity |].
  rewrite filter_cons. destruct (decide (c ≠ CR)) as [Hc|Hc].
  - rewrite !occurrences_cons, IH. reflexivity.
  - rewrite occurrences_cons, IH.
    destruct (N.eqb_spec c LF) as [E|E]; [| reflexivity].
    exfalso. apply Hc. rewrite E. discriminate.
Qed.

(** ** The claims *)

(** C1, as the script has it: when [fs.stat] fails, the run ends at once
    with the error of the probe logged and nothing else.  No chunk has gone
    through the transform: the counters are as declared, no progress and no
    completion is logged.  The output file, however, was opened for writing
    before the probe (line 13): it is there and empty, whatever it held; all
    other files are as they were. *)
Theorem stat_failure_stops_the_run cuts fs :
  stat inputFile fs = None →
  console (main cuts fs) = [ErrStat]
  ∧ vars (main cuts fs) = mkRunState 0 0 (Num 0) 0
  ∧ files (main cuts fs) !! outputFile = Some []
  ∧ ∀ path, path ≠ outputFile → files (main cuts fs) !! path = fs !! path.
Proof.
  intros H. unfold main. rewrite stat_createWriteStream, H.
  cbn [console vars files]. repeat split.
  - unfold createWriteStream. apply lookup_insert_eq.
  - intros path Hne. unfold createWriteStream.
    apply lookup_insert_ne. intros E. apply Hne. symmetry. exact E.
Qed.

(** C2, as the script has it: a run on an input file completes, [totalSize]
    is the size [fs.stat] gave, and [processedSize] ends at the number of
    bytes of the decoded text encoded anew.  For a file that holds a text as
    UTF-8 that is the size of the file. *)
Theorem processedSize_at_the_end cuts fs content :
  fs !! inputFile = Some content →
  LogComplete ∈ console (main cuts fs)
  ∧ stat inputFile fs = Some (totalSize (vars (main cuts fs)))
  ∧ processedSize (vars (main cuts fs))
    = N.of_nat (length (Buffer_from (toString content)))
  ∧ ∀ text,
      well_formed text = true →
      content = Buffer_from text →
      processedSize (vars (main cuts fs)) = totalSize (vars (main cuts fs)).
Proof.
  intros Hfile.
  destruct (main_counters cuts fs content Hfile) as (Ht & Hp & _).
  split; [| split; [| split]].
  - rewrite (main_streams _ _ _ (stat_Some _ _ _ Hfile)).
    cbn [on_finish console]. apply elem_of_app. right. left.
  - rewrite Ht. apply stat_Some. assumption.
  - assumption.
  - intros text Hwf ->. rewrite Hp, Ht, toString_Buffer_from by assumption.
    reflexivity.
Qed.

(** C3, as the script has it: in every run the percentages logged are
    integers of 10 or more, each at least ten above the one before it, so
    they never decrease and none comes twice; each is the floor of the
    progress that the script computes, in doubles, from the variables as
    the chunk that logs it leaves them; on a file that holds a text as
    UTF-8 none is above 100.  They need not be multiples of ten. *)
Theorem reports_ascend_by_ten cuts fs :
  ∃ zs : list Z,
    reports (console (main cuts fs)) = map int zs
    ∧ Forall (λ z, (10 ≤ z)%Z) zs
    ∧ ascending 0 zs
    ∧ StronglySorted Z.lt zs
    ∧ NoDup zs
    ∧ (∀ size,
         stat inputFile fs = Some size →
         Forall (λ z, ∃ k,
                   reports (console (after_chunks (S k) cuts fs size))
                   = reports (console (after_chunks k cuts fs size)) ++ [int z]
                   ∧ Math_floor (progress (vars (after_chunks (S k) cuts fs size)))
                     = int z) zs)
    ∧ ∀ text,
        well_formed text = true →
        fs !! inputFile = Some (Buffer_from text) →
        Forall (λ z, (z ≤ 100)%Z) zs.
Proof.
  destruct (stat inputFile fs) as [size|] eqn:Hstat.
  2: { exists []. unfold main. rewrite stat_createWriteStream, Hstat. cbn.
       repeat split; constructor. }
  rewrite (main_after_chunks _ _ _ Hstat), reports_on_finish.
  set (k := length (readChunks cuts (createReadStream inputFile fs))).
  destruct (after_chunks_reports k cuts fs size Hstat)
    as (zs & Hr & Ha & Hb & _ & _).
  exists zs. split; [assumption |]. split; [| split; [| split; [| split; [| split]]]].
  - apply ascending_lower in Ha.
    eapply Forall_impl; [exact Ha |]. cbn. intros. lia.
  - assumption.
  - eapply ascending_sorted. eassumption.
  - eapply ascending_NoDup. eassumption.
  - intros size' Hsize. injection Hsize as <-.
    apply Forall_forall. intros z Hz.
    assert (Hin : int z ∈ reports (console (after_chunks k cuts fs size))).
    { rewrite Hr. apply list_elem_of_In, in_map, list_elem_of_In. exact Hz. }
    unfold after_chunks, k in Hin. rewrite firstn_all in Hin.
    apply pipe_report_origin in Hin as [Hin|(j & Hj & Hf)].
    + cbn in Hin. apply elem_of_nil in Hin. contradiction.
    + exists j. split; [exact Hj | exact Hf].
  - intros text Hwf Hfile.
    rewrite (stat_Some _ _ _ Hfile) in Hstat. injection Hstat as <-.
    destruct (after_chunks_processedSize k cuts fs text Hwf Hfile
                (N.of_nat (length (Buffer_from text))))
      as (done & rest & Htext & _ & Hp).
    eapply Forall_impl; [exact Hb |]. cbn. intros z Hz.
    etransitivity; [exact Hz |]. apply reached_le_100.
    rewrite Hp, Htext, Buffer_from_app, length_app. lia.
Qed.

(** C4: the output file holds in the end the upper-cased text of the input
    file, however the reads cut the text; and so for every list of chunks
    that makes up the text, sent through the pipe into an empty output
    file. *)
Theorem output_is_the_uppercased_input cuts fs content :
  fs !! inputFile = Some content →
  files (main cuts fs) !! outputFile
  = Some (Buffer_from (toUpperCase (toString content)))
  ∧ ∀ chunks w,
      concat chunks = toString content →
      files w !! outputFile = Some [] →
      files (pipe chunks w) !! outputFile
      = Some (Buffer_from (toUpperCase (toString content))).
Proof.
  intros Hfile.
  assert (Hwf : well_formed (toString content) = true)
    by apply utf8_decode_well_formed.
  split.
  - rewrite (main_streams _ _ _ (stat_Some _ _ _ Hfile)). cbn [on_finish files].
    rewrite (createReadStream_content _ _ _ Hfile).
    rewrite (pipe_output _ _ []).
    + rewrite concat_readChunks. reflexivity.
    + rewrite concat_readChunks. assumption.
    + unfold start, createWriteStream. cbn [files]. apply lookup_insert_eq.
  - intros chunks w Hchunks Hout.
    rewrite (pipe_output _ _ []); [| rewrite Hchunks; assumption | assumption].
    rewrite Hchunks. reflexivity.
Qed.

(** C5, as the script has it: a chunk logs one progress message at most.
    On a total that is not zero, with [l] the percentage logged last and [z]
    the floor of the progress that the script computes, in doubles, from
    the variables as the chunk leaves them: nothing is logged while [z] is
    below [l + 10]; otherwise the message carries [z] itself, and [z] is
    what [lastLoggedProgress] becomes.  When the chunk went past more than
    one threshold, [z] is beyond [l + 10]: the thresholds before it are
    passed over without a message.  While fewer than 2^44 bytes are
    through, [z] is floor (100 * processedSize / totalSize) or, where the
    doubles fall just below a whole number, one less. *)
Theorem one_report_with_the_percentage_reached chunk st l :
  (0 < totalSize st)%N →
  lastLoggedProgress st = int l →
  let st' := (transform chunk st).1.1 in
  let log := (transform chunk st).2 in
  let z := reached (processedSize st') (totalSize st) in
  Math_floor (progress st') = int z
  ∧ length log ≤ 1
  ∧ ((z < l + 10)%Z → log = [] ∧ lastLoggedProgress st' = int l)
  ∧ ((l + 10 ≤ z)%Z →
     log = [LogProgress (int z) (processedLines st')]
     ∧ lastLoggedProgress st' = int z)
  ∧ ((Z.of_N (processedSize st') < 2 ^ 44)%Z →
     (percent (processedSize st') (totalSize st) - 1 ≤ z
      ≤ percent (processedSize st') (totalSize st))%Z).
Proof.
  intros Ht Hl. cbv zeta.
  split.
  { rewrite Math_floor_progress; rewrite transform_totalSize; [reflexivity | exact Ht]. }
  split; [| split; [| split]].
  4: { intros Hp. apply reached_near_percent; assumption. }
  all: rewrite (transform_reached chunk st l Ht Hl); cbv zeta.
  all: destruct (Z.leb_spec (l + 10)
              (reached (processedSize st + N.of_nat (length chunk)) (totalSize st)))
    as [Hz|Hz]; cbn [fst snd processedSize processedLines lastLoggedProgress length].
  all: try lia; auto.
Qed.

(** C6: the transform adds the number of bytes of the chunk to
    [processedSize], and to [processedLines] the number of line feeds of the
    chunk alone: what it adds is the same whatever the variables hold, so
    nothing is carried from one chunk to the next. *)
Theorem counters_grow_by_the_chunk chunk st :
  processedSize (transform chunk st).1.1
  = (processedSize st + N.of_nat (length chunk))%N
  ∧ processedLines (transform chunk st).1.1
    = (processedLines st + N.of_nat (occurrences LF (toString chunk)))%N
  ∧ ∀ st2,
      (processedLines (transform chunk st2).1.1 - processedLines st2
       = processedLines (transform chunk st).1.1 - processedLines st)%N.
Proof.
  split; [apply transform_processedSize |].
  split; [apply transform_processedLines |].
  intros st2. rewrite !transform_processedLines. lia.
Qed.

(** C7, as the script has it: on a file that holds a text as UTF-8,
    [processedSize] is never above [totalSize]; and after any number [k] of
    chunks of a run, when the next chunk changes [lastLoggedProgress], the
    new value is an integer, the floor of the progress that the script
    computes in doubles, and while fewer than 2^44 bytes are through it is
    not above floor (100 * processedSize / totalSize) at that moment. *)
Theorem processedSize_and_lastLoggedProgress_bounded k cuts fs content :
  fs !! inputFile = Some content →
  let size := N.of_nat (length content) in
  let w := after_chunks k cuts fs size in
  let w' := after_chunks (S k) cuts fs size in
  stat inputFile fs = Some (totalSize (vars w))
  ∧ (lastLoggedProgress (vars w') ≠ lastLoggedProgress (vars w) →
     ∃ z, lastLoggedProgress (vars w') = int z
          ∧ Math_floor (progress (vars w')) = int z
          ∧ ((Z.of_N (processedSize (vars w')) < 2 ^ 44)%Z →
             (z ≤ percent (processedSize (vars w')) (totalSize (vars w')))%Z))
  ∧ ∀ text,
      well_formed text = true →
      content = Buffer_from text →
      (processedSize (vars w) <= totalSize (vars w))%N.
Proof.
  intros Hfile size w w'.
  pose proof (stat_Some _ _ _ Hfile) as Hstat. fold size in Hstat.
  assert (Ht : totalSize (vars w) = size) by apply after_chunks_totalSize.
  split; [rewrite Ht; assumption |]. split.
  - intros Hchanged.
    destruct (readChunks cuts (createReadStream inputFile fs) !! k)
      as [s|] eqn:Hs.
    2: { exfalso. apply Hchanged. unfold w', w.
         rewrite (after_chunks_end _ _ _ _ Hs). reflexivity. }
    assert (Hpos : (0 < totalSize (vars w))%N).
    { rewrite Ht. destruct (N.eq_dec size 0%N) as [E|E]; [| lia].
      rewrite E in Hstat. rewrite (no_bytes_no_chunks _ _ Hstat) in Hs.
      discriminate Hs. }
    destruct (after_chunks_reports k cuts fs size Hstat)
      as (_ & _ & _ & _ & _ & l & Hl).
    fold w in Hl.
    assert (Hw' : w' = pipe_chunk s w) by (apply after_chunks_S; assumption).
    assert (Ht' : totalSize (vars w') = totalSize (vars w)).
    { unfold w', w. rewrite !after_chunks_totalSize. reflexivity. }
    exists (reached (processedSize (vars w')) (totalSize (vars w'))).
    split; [| split].
    + rewrite Ht'. revert Hchanged. rewrite Hw'.
      rewrite pipe_chunk_eq, (transform_reached _ _ l Hpos Hl). cbv zeta.
      destruct (Z.leb_spec (l + 10)
                  (reached (processedSize (vars w)
                            + N.of_nat (length (Buffer_from s)))
                           (totalSize (vars w)))) as [Hz|Hz];
        cbn [vars fst lastLoggedProgress processedSize]; intros Hchanged.
      * reflexivity.
      * exfalso. apply Hchanged. symmetry. assumption.
    + apply Math_floor_progress. rewrite Ht'. exact Hpos.
    + intros Hp. apply reached_near_percent; [rewrite Ht'; exact Hpos | exact Hp].
  - intros text Hwf Htext. subst content.
    destruct (after_chunks_processedSize k cuts fs text Hwf Hfile size)
      as (done & rest & Hsplit & _ & Hp).
    fold w in Hp. rewrite Hp, Ht. unfold size.
    rewrite Hsplit, Buffer_from_app, length_app. lia.
Qed.

(** C8: the input of twelve bytes and two lines, read as the two chunks of
    six characters: the output file holds the text in capitals,
    [processedLines] ends at 2, the summary gives 2 lines, the completion is
    logged once and no error is logged. *)
Theorem hello_world_run :
  let w := main [6%positive] {[ inputFile := hello_world ]} in
  readChunks [6%positive] (createReadStream inputFile {[ inputFile := hello_world ]})
  = [[104; 101; 108; 108; 111; 10]; [119; 111; 114; 108; 100; 10]]%N
  ∧ stat inputFile {[ inputFile := hello_world ]} = Some 12%N
  ∧ files w !! outputFile = Some HELLO_WORLD
  ∧ processedLines (vars w) = 2%N
  ∧ LogTotalLines 2 ∈ console w
  ∧ length (filter (λ e, is_complete e = true) (console w)) = 1
  ∧ filter (λ e, is_error e = true) (console w) = [].
Proof.
  cbv zeta. repeat split; try (vm_compute; reflexivity).
  vm_compute. do 3 right. left.
Qed.

(** C9: [processedLines] ends at the number of line feeds of the whole
    text of the input, however the reads cut it; and a run on the same text
    with every carriage return taken out ends at the same number: a
    carriage return counts for nothing, alone or before a line feed. *)
Theorem processedLines_counts_line_feeds cuts cuts' fs fs' content content' :
  fs !! inputFile = Some content →
  fs' !! inputFile = Some content' →
  toString content' = filter (λ c, c ≠ CR) (toString content) →
  processedLines (vars (main cuts fs))
  = N.of_nat (occurrences LF (toString content))
  ∧ processedLines (vars (main cuts' fs)) = processedLines (vars (main cuts fs))
  ∧ processedLines (vars (main cuts' fs')) = processedLines (vars (main cuts fs)).
Proof.
  intros Hfile Hfile' Htext.
  destruct (main_counters cuts fs content Hfile) as (_ & _ & Hn).
  destruct (main_counters cuts' fs content Hfile) as (_ & _ & Hn').
  destruct (main_counters cuts' fs' content' Hfile') as (_ & _ & Hn'').
  rewrite Hn, Hn', Hn'', Htext, occurrences_without_CR. auto.
Qed.

(** C10, as the script has it: in every run, the percentages logged are
    integers of 10 or more, so 0 is never logged, and each is at least ten
    above the one before it; and as soon as a message has been logged, the
    progress that the script computes in doubles is 10 or more, which
    means, while fewer than 2^44 bytes are through, that [processedSize] is
    at least ten hundredths of the size. *)
Theorem no_report_before_ten_percent cuts fs :
  ∃ zs : list Z,
    reports (console (main cuts fs)) = map int zs
    ∧ Forall (λ z, (10 ≤ z)%Z) zs
    ∧ ascending 0 zs
    ∧ ∀ k size,
        stat inputFile fs = Some size →
        reports (console (after_chunks k cuts fs size)) ≠ [] →
        (10 ≤ reached (processedSize (vars (after_chunks k cuts fs size))) size)%Z
        ∧ ((Z.of_N (processedSize (vars (after_chunks k cuts fs size))) < 2 ^ 44)%Z →
           (10 * Z.of_N size
            ≤ 100 * Z.of_N (processedSize (vars (after_chunks k cuts fs size))))%Z).
Proof.
  assert (Hlater : ∀ k size,
    stat inputFile fs = Some size →
    reports (console (after_chunks k cuts fs size)) ≠ [] →
    (10 ≤ reached (processedSize (vars (after_chunks k cuts fs size))) size)%Z
    ∧ ((Z.of_N (processedSize (vars (after_chunks k cuts fs size))) < 2 ^ 44)%Z →
       (10 * Z.of_N size
        ≤ 100 * Z.of_N (processedSize (vars (after_chunks k cuts fs size))))%Z)).
  { intros k size Hstat Hlogged.
    destruct (after_chunks_reports k cuts fs size Hstat)
      as (zs & Hr & Ha & Hb & Hpos & _).
    destruct zs as [|z zs]; [rewrite Hr in Hlogged; contradiction |].
    assert (Hsize : (0 < size)%N) by (apply Hpos; discriminate).
    assert (H10 : (10 ≤ reached (processedSize (vars (after_chunks k cuts fs size)))
                                size)%Z).
    { destruct Ha as [Hz _]. inversion Hb; subst. lia. }
    split; [exact H10 |]. intros Hp.
    apply percent_ge; [exact Hsize |].
    pose proof (reached_near_percent _ size Hsize Hp). lia. }
  destruct (stat inputFile fs) as [size|] eqn:Hstat.
  - rewrite (main_after_chunks _ _ _ Hstat), reports_on_finish.
    destruct (after_chunks_reports
                (length (readChunks cuts (createReadStream inputFile fs)))
                cuts fs size Hstat) as (zs & Hr & Ha & _).
    exists zs. repeat split; try assumption.
    + apply ascending_lower in Ha.
      eapply Forall_impl; [exact Ha |]. cbn. intros. lia.
    + apply Hlater; assumption.
    + apply Hlater; assumption.
  - exists []. unfold main. rewrite stat_createWriteStream, Hstat. cbn.
    split; [reflexivity |]. split; [constructor |]. split; [constructor |].
    intros k size Hsize. discriminate Hsize.
Qed.

(** ** More of the script

    *** What a run leaves on the console and in the files *)

Lemma reported_lines_app log1 log2 :
  reported_lines (log1 ++ log2) = reported_lines log1 ++ reported_lines log2.
Proof. unfold reported_lines. apply flat_map_app. Qed.

(** The transform logs nothing and leaves [lastLoggedProgress], or logs one
    message with the new [lastLoggedProgress] and the new [processedLines]. *)
Lemma transform_log_cases chunk st :
  ((transform chunk st).2 = []
   ∧ lastLoggedProgress (transform chunk st).1.1 = lastLoggedProgress st)
  ∨ (transform chunk st).2
    = [LogProgress (lastLoggedProgress (transform chunk st).1.1)
                   (processedLines (transform chunk st).1.1)].
Proof.
  unfold transform. destruct (js_ge _ _); [right | left]; cbn; auto.
Qed.

Lemma pipe_processedLines_mono chunks w :
  (processedLines (vars w) <= processedLines (vars (pipe chunks w)))%N.
Proof.
  revert w. induction chunks as [|s chunks IH]; intros w; [cbn; lia |].
  cbn [pipe]. etransitivity; [| apply IH].
  rewrite pipe_chunk_eq. cbn [vars]. rewrite transform_processedLines. lia.
Qed.

Lemma pipe_processedSize_mono chunks w :
  (processedSize (vars w) <= processedSize (vars (pipe chunks w)))%N.
Proof. rewrite pipe_processedSize. lia. Qed.

(** What a stretch of chunks adds to the console. *)
Lemma pipe_log chunks w :
  ∃ log,
    console (pipe chunks w) = console w ++ log
    ∧ Forall (λ e, is_progress e = true) log
    ∧ length log ≤ length chunks
    ∧ Forall (λ n, (processedLines (vars w) <= n)%N
                   ∧ (n <= processedLines (vars (pipe chunks w)))%N)
             (reported_lines log)
    ∧ StronglySorted N.le (reported_lines log)
    ∧ lastLoggedProgress (vars (pipe chunks w))
      = default (lastLoggedProgress (vars w)) (last (reports log)).
Proof.
  revert w. induction chunks as [|s chunks IH]; intros w.
  { exists []. cbn. rewrite app_nil_r. repeat split; constructor. }
  cbn [pipe]. destruct (IH (pipe_chunk s w)) as (log & Hc & Hp & Hn & Hl & Hs & Hlast).
  pose proof (pipe_processedLines_mono chunks (pipe_chunk s w)) as Hmono.
  set (r := transform (Buffer_from s) (vars w)).
  assert (Hcw : console (pipe_chunk s w) = console w ++ r.2)
    by (rewrite pipe_chunk_eq; reflexivity).
  assert (Hvw : vars (pipe_chunk s w) = r.1.1)
    by (rewrite pipe_chunk_eq; reflexivity).
  rewrite Hcw in Hc. rewrite Hvw in Hl, Hlast, Hmono.
  assert (Hstep : (processedLines (vars w) <= processedLines r.1.1)%N).
  { unfold r. rewrite transform_processedLines. lia. }
  exists (r.2 ++ log). split; [rewrite Hc, app_assoc; reflexivity |].
  destruct (transform_log_cases (Buffer_from s) (vars w)) as [[E El]|E];
    fold r in E; try fold r in El; rewrite E.
  - cbn [app length]. rewrite Hlast, El.
    repeat split; try assumption; [lia |].
    eapply Forall_impl; [exact Hl |]. cbn. intros n [? ?]. split; lia.
  - cbn [app length reported_lines flat_map reports]. fold (reported_lines log).
    fold (reports log). split; [constructor; [reflexivity | assumption] |].
    split; [lia |]. split; [| split].
    + constructor; [split; [assumption | exact Hmono] |].
      eapply Forall_impl; [exact Hl |]. cbn. intros n [? ?]. split; lia.
    + constructor; [assumption |].
      eapply Forall_impl; [exact Hl |]. cbn. intros n [? ?]. assumption.
    + rewrite Hlast. destruct (reports log) as [|v vs] eqn:Ev; [reflexivity |].
      destruct (last (v :: vs)) as [v'|] eqn:El.
      * rewrite (last_cons _ (v :: vs)), El. reflexivity.
      * apply last_None in El. discriminate El.
Qed.

(** X1: a run writes to the output file alone: the input file and every
    other file are after the run what they were before it, whether the
    probe fails or not. *)
Theorem only_the_output_file_is_written cuts fs path :
  path ≠ outputFile → files (main cuts fs) !! path = fs !! path.
Proof.
  intros Hne. unfold main.
  assert (Hcreate : createWriteStream outputFile fs !! path = fs !! path).
  { unfold createWriteStream. apply lookup_insert_ne.
    intros E. apply Hne. symmetry. exact E. }
  destruct (stat inputFile (createWriteStream outputFile fs)); cbn [files on_finish].
  - rewrite pipe_other_files by assumption. exact Hcreate.
  - exact Hcreate.
Qed.

(** X2: what the output file held before the run is of no consequence:
    the run on a file system with any old output file is the run on the
    file system without it, console, variables and files alike. *)
Theorem old_output_is_discarded cuts fs old :
  main cuts (<[outputFile := old]> fs) = main cuts fs.
Proof.
  unfold main, createReadStream, createWriteStream.
  rewrite insert_insert_eq.
  rewrite lookup_insert_ne by discriminate. reflexivity.
Qed.

(** X3: in a run whose probe succeeds and whose reads and writes do not
    fail, as are all runs here, the console holds progress messages, at
    most one for each chunk, and then the three messages of [finish], the
    total of lines being [processedLines] at the end. *)
Theorem console_of_a_streamed_run cuts fs size :
  stat inputFile fs = Some size →
  ∃ log,
    console (main cuts fs)
    = log ++ [LogComplete; LogTotalLines (processedLines (vars (main cuts fs)));
              LogElapsed]
    ∧ Forall (λ e, is_progress e = true) log
    ∧ length log ≤ length (readChunks cuts (createReadStream inputFile fs)).
Proof.
  intros Hstat. rewrite (main_streams _ _ _ Hstat).
  destruct (pipe_log (readChunks cuts (createReadStream inputFile fs))
                     (start size (createWriteStream outputFile fs)))
    as (log & Hc & Hp & Hn & _).
  cbn [start console app] in Hc.
  exists log. unfold on_finish. cbn [console vars]. rewrite Hc.
  split; [reflexivity |]. split; assumption.
Qed.

(** X4: the numbers of lines in the progress messages of a run never
    decrease from one message to the next, and none is above the total the
    run ends with. *)
Theorem progress_lines_ascend cuts fs :
  StronglySorted N.le (reported_lines (console (main cuts fs)))
  ∧ Forall (λ n, (n <= processedLines (vars (main cuts fs)))%N)
           (reported_lines (console (main cuts fs))).
Proof.
  unfold main.
  destruct (stat inputFile (createWriteStream outputFile fs)) as [size|];
    [| cbn; split; constructor].
  destruct (pipe_log (readChunks cuts (createReadStream inputFile fs))
                     (start size (createWriteStream outputFile fs)))
    as (log & Hc & _ & _ & Hl & Hs & _).
  cbn [start console app] in Hc.
  unfold on_finish. cbn [console vars].
  rewrite Hc, reported_lines_app. cbn. rewrite app_nil_r.
  split; [assumption |].
  eapply Forall_impl; [exact Hl |]. cbn. intros n [_ H]. exact H.
Qed.

(** X5: at the end of a run [lastLoggedProgress] is the percentage of the
    last progress message on the console, and 0 when there is none. *)
Theorem lastLoggedProgress_is_the_last_report cuts fs :
  lastLoggedProgress (vars (main cuts fs))
  = default (Num 0) (last (reports (console (main cuts fs)))).
Proof.
  unfold main.
  destruct (stat inputFile (createWriteStream outputFile fs)) as [size|];
    [| reflexivity].
  destruct (pipe_log (readChunks cuts (createReadStream inputFile fs))
                     (start size (createWriteStream outputFile fs)))
    as (log & Hc & _ & _ & _ & _ & Hlast).
  cbn [start console app vars lastLoggedProgress] in Hc, Hlast.
  rewrite reports_on_finish. cbn [on_finish vars]. rewrite Hc. exact Hlast.
Qed.

(** *** How far the progress messages go *)

Lemma ascending_length l u zs :
  ascending l zs → Forall (λ z, (z ≤ u)%Z) zs →
  (10 * Z.of_nat (length zs) ≤ Z.max 0 (u - l))%Z.
Proof.
  revert l. induction zs as [|z zs IH]; intros l Ha Hu; [cbn; lia |].
  destruct Ha as [Hz Ha]. apply Forall_cons in Hu as [Hzu Hu].
  specialize (IH z Ha Hu). cbn [length]. lia.
Qed.

Lemma int_inj z1 z2 : int z1 = int z2 → z1 = z2.
Proof. unfold int, inject_Z. intros H. injection H as H. exact H. Qed.

Lemma utf8_bytes_length c : 0 < length (utf8_bytes c).
Proof. unfold utf8_bytes. repeat destruct (_ <? _)%N; cbn; lia. Qed.

(** A string that is not empty has bytes. *)
Lemma Buffer_from_nonempty s : s ≠ [] → 0 < length (Buffer_from s).
Proof.
  destruct s as [|c s]; [contradiction |]. intros _.
  change (Buffer_from (c :: s)) with (encode_cp c ++ Buffer_from s).
  rewrite length_app. unfold encode_cp.
  destruct (is_scalar c);
    [pose proof (utf8_bytes_length c) | pose proof (utf8_bytes_length REPLACEMENT)];
    lia.
Qed.

(** Along a stretch of chunks, on a total that is not zero,
    [lastLoggedProgress] stays less than ten points below the percentage
    reached. *)
Lemma pipe_lag chunks w l :
  (0 < totalSize (vars w))%N →
  lastLoggedProgress (vars w) = int l →
  (l ≤ reached (processedSize (vars w)) (totalSize (vars w)) < l + 10)%Z →
  ∃ l',
    lastLoggedProgress (vars (pipe chunks w)) = int l'
    ∧ (l' ≤ reached (processedSize (vars (pipe chunks w))) (totalSize (vars w))
       < l' + 10)%Z.
Proof.
  revert w l. induction chunks as [|s chunks IH]; intros w l Ht Hl Hlag.
  { exists l. split; assumption. }
  cbn [pipe].
  pose proof (pipe_chunk_eq s w) as Hw1.
  rewrite (transform_reached _ _ l Ht Hl) in Hw1. cbv zeta in Hw1.
  pose proof (reached_mono (processedSize (vars w))
                (processedSize (vars w) + N.of_nat (length (Buffer_from s)))
                (totalSize (vars w)) ltac:(lia)) as Hmono.
  destruct (Z.leb_spec (l + 10)
              (reached (processedSize (vars w) + N.of_nat (length (Buffer_from s)))
                       (totalSize (vars w)))) as [Hz|Hz].
  - destruct (IH (pipe_chunk s w)
                (reached (processedSize (vars w) + N.of_nat (length (Buffer_from s)))
                         (totalSize (vars w)))) as (l' & Hl' & Hlag').
    + rewrite Hw1. exact Ht.
    + rewrite Hw1. reflexivity.
    + rewrite Hw1. cbn [vars fst snd processedSize totalSize]. lia.
    + exists l'. split; [assumption |].
      replace (totalSize (vars (pipe_chunk s w))) with (totalSize (vars w)) in Hlag'
        by (rewrite Hw1; reflexivity).
      assumption.
  - destruct (IH (pipe_chunk s w) l) as (l' & Hl' & Hlag').
    + rewrite Hw1. exact Ht.
    + rewrite Hw1. reflexivity.
    + rewrite Hw1. cbn [vars fst snd processedSize totalSize]. lia.
    + exists l'. split; [assumption |].
      replace (totalSize (vars (pipe_chunk s w))) with (totalSize (vars w)) in Hlag'
        by (rewrite Hw1; reflexivity).
      assumption.
Qed.

(** On a file that holds a text as UTF-8, the percentages logged in a run
    rise by ten at least from 0 and stay at 100 at most. *)
Lemma main_reports_to_100 cuts fs text :
  well_formed text = true →
  fs !! inputFile = Some (Buffer_from text) →
  ∃ zs : list Z,
    reports (console (main cuts fs)) = map int zs
    ∧ ascending 0 zs
    ∧ Forall (λ z, (z ≤ 100)%Z) zs.
Proof.
  intros Hwf Hfile.
  pose proof (stat_Some _ _ _ Hfile) as Hstat.
  rewrite (main_after_chunks _ _ _ Hstat), reports_on_finish.
  set (k := length (readChunks cuts (createReadStream inputFile fs))).
  destruct (after_chunks_reports k cuts fs _ Hstat) as (zs & Hr & Ha & Hb & _ & _).
  destruct (after_chunks_processedSize k cuts fs text Hwf Hfile
              (N.of_nat (length (Buffer_from text))))
    as (done & rest & Htext & _ & Hp).
  exists zs. split; [assumption |]. split; [assumption |].
  eapply Forall_impl; [exact Hb |]. cbn. intros z Hz.
  etransitivity; [exact Hz |]. apply reached_le_100.
  rewrite Hp, Htext, Buffer_from_app, length_app. lia.
Qed.

(** X6: a run on a file that holds a text as UTF-8 logs ten progress
    messages at most, however many chunks the text is read in. *)
Theorem at_most_ten_progress_messages cuts fs text :
  well_formed text = true →
  fs !! inputFile = Some (Buffer_from text) →
  length (reports (console (main cuts fs))) ≤ 10.
Proof.
  intros Hwf Hfile.
  destruct (main_reports_to_100 cuts fs text Hwf Hfile) as (zs & Hr & Ha & Hb).
  rewrite Hr, length_map.
  pose proof (ascending_length 0 100 zs Ha Hb). lia.
Qed.

(** X7: while a run streams an input that is not empty, after any number
    of chunks [lastLoggedProgress] is an integer that is not above the
    floor of the progress that the script computes, in doubles, from the
    variables as they stand, and less than ten below it. *)
Theorem progress_lags_less_than_ten_points k cuts fs size :
  stat inputFile fs = Some size →
  (0 < size)%N →
  ∃ l z : Z,
    lastLoggedProgress (vars (after_chunks k cuts fs size)) = int l
    ∧ Math_floor (progress (vars (after_chunks k cuts fs size))) = int z
    ∧ (l ≤ z < l + 10)%Z.
Proof.
  intros Hstat Hsize.
  destruct (pipe_lag (take k (readChunks cuts (createReadStream inputFile fs)))
                     (start size (createWriteStream outputFile fs)) 0)
    as (l & Hl & Hlag).
  - exact Hsize.
  - reflexivity.
  - cbn [start vars processedSize totalSize]. rewrite reached_0. lia.
  - exists l, (reached (processedSize (vars (after_chunks k cuts fs size))) size).
    split; [exact Hl |]. split; [| exact Hlag].
    rewrite Math_floor_progress; rewrite after_chunks_totalSize;
      [reflexivity | exact Hsize].
Qed.

(** Two percentages of a run are the same or ten apart at least. *)
Lemma ascending_apart l zs a b :
  ascending l zs → a ∈ zs → b ∈ zs → a ≠ b → (10 ≤ Z.abs (a - b))%Z.
Proof.
  revert l. induction zs as [|z zs IH]; intros l Ha Hin1 Hin2 Hne.
  { apply elem_of_nil in Hin1. contradiction. }
  destruct Ha as [_ Ha].
  pose proof (ascending_lower _ _ Ha) as Hlow. rewrite Forall_forall in Hlow.
  apply elem_of_cons in Hin1 as [->|Hin1]; apply elem_of_cons in Hin2 as [->|Hin2].
  - contradiction.
  - specialize (Hlow _ Hin2). lia.
  - specialize (Hlow _ Hin1). lia.
  - eapply IH; eassumption.
Qed.

Lemma elem_of_map_int z zs : int z ∈ map int zs ↔ z ∈ zs.
Proof.
  rewrite !list_elem_of_In, in_map_iff. split.
  - intros (z' & E & Hin). apply int_inj in E. subst z'. exact Hin.
  - intros Hin. exists z. auto.
Qed.

(** X8: a run on a text that is not empty, held as UTF-8, logs at least
    one progress message, and the last one carries a percentage from 91 to
    100; the message of 100 is missing exactly when one above 90 and below
    100 was logged. *)
Theorem last_report_is_above_90 cuts fs text :
  well_formed text = true →
  text ≠ [] →
  fs !! inputFile = Some (Buffer_from text) →
  ∃ z : Z,
    last (reports (console (main cuts fs))) = Some (int z)
    ∧ (91 ≤ z ≤ 100)%Z
    ∧ (int 100 ∉ reports (console (main cuts fs))
       ↔ ∃ z' : Z, int z' ∈ reports (console (main cuts fs))
                   ∧ (90 < z' < 100)%Z).
Proof.
  intros Hwf Hne Hfile.
  destruct (main_reports_to_100 cuts fs text Hwf Hfile) as (zs & Hzs & Hasc & _).
  assert (Hlast : ∃ z : Z,
    last (reports (console (main cuts fs))) = Some (int z) ∧ (91 ≤ z ≤ 100)%Z).
  { pose proof (stat_Some _ _ _ Hfile) as Hstat.
    pose proof (Buffer_from_nonempty text Hne) as Hpos.
    set (size := N.of_nat (length (Buffer_from text))) in *.
    destruct (main_counters cuts fs _ Hfile) as (_ & Hp & _).
    rewrite toString_Buffer_from in Hp by assumption. fold size in Hp.
    revert Hp. rewrite (main_streams _ _ _ Hstat), reports_on_finish.
    cbn [on_finish vars]. intros Hp.
    set (chunks := readChunks cuts (createReadStream inputFile fs)) in *.
    set (w0 := start size (createWriteStream outputFile fs)) in *.
    destruct (pipe_lag chunks w0 0) as (l & Hl & Hlag).
    { cbn. lia. }
    { reflexivity. }
    { cbn [w0 start vars processedSize totalSize]. rewrite reached_0. lia. }
    rewrite Hp in Hlag. cbn [w0 start vars totalSize] in Hlag.
    rewrite reached_all in Hlag by lia.
    destruct (pipe_log chunks w0) as (log & Hc & _ & _ & _ & _ & Hlast).
    cbn [w0 start console app vars lastLoggedProgress] in Hc, Hlast.
    fold w0 in Hc, Hlast. rewrite Hc. rewrite Hl in Hlast.
    destruct (last (reports log)) as [v|]; cbn in Hlast.
    - exists l. rewrite <- Hlast. split; [reflexivity | lia].
    - apply (int_inj l 0) in Hlast. lia. }
  destruct Hlast as (z & Hlast & Hz).
  exists z. split; [exact Hlast |]. split; [exact Hz |].
  assert (Hin : z ∈ zs).
  { apply elem_of_map_int. rewrite <- Hzs.
    apply last_Some_elem_of. exact Hlast. }
  rewrite Hzs. split.
  - intros H100. exists z. split; [apply elem_of_map_int; exact Hin |].
    destruct (Z.eq_dec z 100%Z) as [->|]; [| lia].
    exfalso. apply H100. apply elem_of_map_int. exact Hin.
  - intros (z' & Hin' & Hz') H100.
    apply elem_of_map_int in Hin', H100.
    pose proof (ascending_apart 0 zs z' 100%Z Hasc Hin' H100 ltac:(lia)). lia.
Qed.

(** X9: a text that is not empty, held as UTF-8 and read in one chunk,
    gives one progress message, of 100 percent with all the lines of the
    text, and then the three messages of [finish]. *)
Theorem one_chunk_logs_100 fs text :
  well_formed text = true →
  text ≠ [] →
  fs !! inputFile = Some (Buffer_from text) →
  console (main [] fs)
  = [LogProgress (int 100) (N.of_nat (occurrences LF text));
     LogComplete; LogTotalLines (N.of_nat (occurrences LF text)); LogElapsed].
Proof.
  intros Hwf Hne Hfile.
  pose proof (stat_Some _ _ _ Hfile) as Hstat.
  pose proof (Buffer_from_nonempty text Hne) as Hpos.
  rewrite (main_streams _ _ _ Hstat).
  rewrite (createReadStream_text _ _ _ Hwf Hfile).
  destruct text as [|c text']; [contradiction |].
  set (text := c :: text') in *.
  change (readChunks [] text) with [text]. cbn [pipe].
  rewrite pipe_chunk_eq.
  set (size := N.of_nat (length (Buffer_from text))) in *.
  rewrite (transform_reached _ _ 0); [| cbn; lia | reflexivity].
  cbn [start vars processedSize totalSize processedLines]. cbv zeta.
  rewrite N.add_0_l. fold size. rewrite reached_all by lia.
  rewrite toString_Buffer_from by assumption.
  reflexivity.
Qed.

(** X10: an input file without bytes: the run completes at once, logs no
    progress and a total of 0 lines, leaves the counters at 0 and the
    output file empty. *)
Theorem empty_input_run cuts fs :
  fs !! inputFile = Some [] →
  main cuts fs
  = mkWorld (createWriteStream outputFile fs)
            [LogComplete; LogTotalLines 0; LogElapsed]
            (mkRunState 0 0 (Num 0) 0).
Proof.
  intros Hfile.
  rewrite (main_streams _ _ _ (stat_Some _ _ _ Hfile)).
  rewrite (createReadStream_content _ _ _ Hfile).
  change (toString []) with (@nil N). rewrite readChunks_nil. reflexivity.
Qed.

(** X11: a total of zero with bytes arriving, as for a file whose size
    [fs.stat] gives as 0 although it can be read: the quotient is infinite,
    so every chunk that is not empty logs [Infinity], one message for each
    chunk, and [lastLoggedProgress] becomes [Infinity]. *)
Theorem zero_total_logs_every_chunk chunks w :
  totalSize (vars w) = 0%N →
  lastLoggedProgress (vars w) ≠ NaN →
  Forall (λ s, s ≠ []) chunks →
  reports (console (pipe chunks w))
  = reports (console w) ++ replicate (length chunks) Infinity
  ∧ (chunks ≠ [] → lastLoggedProgress (vars (pipe chunks w)) = Infinity).
Proof.
  intros Ht Hlast Hchunks. revert w Ht Hlast.
  induction Hchunks as [|s chunks Hs _ IH]; intros w Ht Hlast.
  { cbn. rewrite app_nil_r. split; [reflexivity | contradiction]. }
  cbn [pipe].
  assert (Hstep : transform (Buffer_from s) (vars w)
    = (mkRunState 0 (processedSize (vars w) + N.of_nat (length (Buffer_from s)))
                  Infinity
                  (processedLines (vars w)
                   + (N.of_nat (length (String_split LF (toString (Buffer_from s)))) - 1)),
       toUpperCase (toString (Buffer_from s)),
       [LogProgress Infinity
          (processedLines (vars w)
           + (N.of_nat (length (String_split LF (toString (Buffer_from s)))) - 1))])).
  { unfold transform. rewrite Ht, progress_zero_total.
    pose proof (Buffer_from_nonempty s Hs).
    destruct (N.eqb_spec (processedSize (vars w) + N.of_nat (length (Buffer_from s))) 0);
      [lia |].
    destruct (lastLoggedProgress (vars w)); [contradiction | |]; reflexivity. }
  pose proof (pipe_chunk_eq s w) as Hw1. rewrite Hstep in Hw1.
  destruct (IH (pipe_chunk s w)) as [Hr Hl].
  { rewrite Hw1. reflexivity. }
  { rewrite Hw1. discriminate. }
  split.
  - rewrite Hr, Hw1. cbn [console]. rewrite reports_app. cbn.
    rewrite <- app_assoc. reflexivity.
  - intros _. destruct chunks as [|s' chunks'].
    + cbn [pipe]. rewrite Hw1. reflexivity.
    + apply Hl. discriminate.
Qed.

(** *** ASCII input *)

Lemma ascii_bytes_cons c b :
  ascii_bytes (c :: b) = true ↔ (c < 0x80)%N ∧ ascii_bytes b = true.
Proof.
  unfold ascii_bytes. cbn [forallb]. rewrite andb_true_iff, N.ltb_lt. reflexivity.
Qed.

Lemma utf8_decode_ascii b : ascii_bytes b = true → utf8_decode b = b.
Proof.
  induction b as [|c b IH]; [reflexivity |].
  intros [Hc Hb]%ascii_bytes_cons.
  rewrite utf8_decode_1 by assumption. rewrite IH by assumption. reflexivity.
Qed.

Lemma Buffer_from_ascii s : ascii_bytes s = true → Buffer_from s = s.
Proof.
  induction s as [|c s IH]; [reflexivity |].
  intros [Hc Hs]%ascii_bytes_cons.
  change (Buffer_from (c :: s)) with (encode_cp c ++ Buffer_from s).
  rewrite IH by assumption. unfold encode_cp, utf8_bytes.
  replace (is_scalar c) with true by (symmetry; apply is_scalar_spec; lia).
  destruct (N.ltb_spec c 0x80); [reflexivity | lia].
Qed.

Lemma upper_ascii_ascii c : (c < 0x80)%N → (upper_ascii c < 0x80)%N.
Proof.
  intros H. unfold upper_ascii.
  destruct (in_range 0x61 0x7A c) eqn:E; [| assumption].
  apply in_range_spec in E. lia.
Qed.

Lemma upper_ascii_idempotent c : upper_ascii (upper_ascii c) = upper_ascii c.
Proof.
  unfold upper_ascii. destruct (in_range 0x61 0x7A c) eqn:E.
  - apply in_range_spec in E. rewrite in_range_false by lia. reflexivity.
  - rewrite E. reflexivity.
Qed.

Lemma toUpperCase_ascii s :
  ascii_bytes s = true → toUpperCase s = map upper_ascii s.
Proof.
  induction s as [|c s IH]; [reflexivity |].
  intros [Hc Hs]%ascii_bytes_cons.
  change (toUpperCase (c :: s)) with (toUppercase c ++ toUpperCase s).
  rewrite IH by assumption. unfold toUppercase.
  destruct (N.ltb_spec c 0x80); [reflexivity | lia].
Qed.

Lemma ascii_bytes_upper s :
  ascii_bytes s = true → ascii_bytes (map upper_ascii s) = true.
Proof.
  induction s as [|c s IH]; [reflexivity |].
  intros [Hc Hs]%ascii_bytes_cons. cbn [map]. apply ascii_bytes_cons.
  split; [apply upper_ascii_ascii; assumption | auto].
Qed.

(** The output file at the end of a run, whatever bytes the input holds. *)
Lemma main_output cuts fs content :
  fs !! inputFile = Some content →
  files (main cuts fs) !! outputFile
  = Some (Buffer_from (toUpperCase (toString content))).
Proof.
  intros Hfile.
  rewrite (main_streams _ _ _ (stat_Some _ _ _ Hfile)). cbn [on_finish files].
  rewrite (createReadStream_content _ _ _ Hfile), (pipe_output _ _ []).
  - rewrite concat_readChunks. reflexivity.
  - rewrite concat_readChunks. apply utf8_decode_well_formed.
  - unfold start, createWriteStream. cbn [files]. apply lookup_insert_eq.
Qed.

Lemma main_output_ascii cuts fs content :
  fs !! inputFile = Some content →
  ascii_bytes content = true →
  files (main cuts fs) !! outputFile = Some (map upper_ascii content).
Proof.
  intros Hfile Hascii. rewrite (main_output _ _ _ Hfile). unfold toString.
  rewrite utf8_decode_ascii, toUpperCase_ascii, Buffer_from_ascii;
    auto using ascii_bytes_upper.
Qed.

(** X12: for an input of ASCII bytes the output file holds, byte for byte,
    the input with the letters [a] to [z] replaced by [A] to [Z]: it has the
    length of the input and as many line feeds, and no table of upper-case
    mappings beyond ASCII has a say. *)
Theorem ascii_input_is_mapped_byte_for_byte cuts fs content :
  fs !! inputFile = Some content →
  ascii_bytes content = true →
  ∃ out,
    files (main cuts fs) !! outputFile = Some out
    ∧ out = map upper_ascii content
    ∧ length out = length content
    ∧ occurrences LF out = occurrences LF content.
Proof.
  intros Hfile Hascii. exists (map upper_ascii content).
  split; [apply main_output_ascii; assumption |].
  split; [reflexivity |]. split; [apply length_map |].
  clear. induction content as [|c content IH]; [reflexivity |].
  cbn [map]. rewrite !occurrences_cons, IH. f_equal.
  unfold upper_ascii. destruct (in_range 0x61 0x7A c) eqn:E; [| reflexivity].
  apply in_range_spec in E.
  destruct (N.eqb_spec (c - 0x20) LF) as [E1|E1];
    destruct (N.eqb_spec c LF) as [E2|E2]; unfold LF in *; try reflexivity; lia.
Qed.

(** X13: running the script on its own output changes nothing more, for
    ASCII input: the output of a run, taken as the input of a second run,
    is the output of the second run. *)
Theorem second_run_changes_nothing cuts cuts' fs fs' content out :
  fs !! inputFile = Some content →
  ascii_bytes content = true →
  files (main cuts fs) !! outputFile = Some out →
  fs' !! inputFile = Some out →
  files (main cuts' fs') !! outputFile = Some out.
Proof.
  intros Hfile Hascii Hout Hfile'.
  rewrite (main_output_ascii _ _ _ Hfile Hascii) in Hout.
  injection Hout as <-.
  rewrite (main_output_ascii _ _ _ Hfile') by (apply ascii_bytes_upper; assumption).
  rewrite map_map. f_equal. apply map_ext. intros c. apply upper_ascii_idempotent.
Qed.

(** *** The run chunk by chunk *)

Lemma well_formed_concat chunks :
  well_formed (concat chunks) = true →
  Forall (λ s, well_formed s = true) chunks.
Proof.
  induction chunks as [|s chunks IH]; [constructor |].
  cbn [concat]. intros [Hs Hrest]%well_formed_app. constructor; auto.
Qed.

(** The chunks of a run make up a text of scalar values, and so does
    every stretch of them. *)
Lemma run_chunks_well_formed k cuts fs :
  well_formed
    (concat (take k (readChunks cuts (createReadStream inputFile fs)))) = true.
Proof.
  pose proof (utf8_decode_well_formed (default [] (fs !! inputFile))) as H.
  fold (createReadStream inputFile fs) in H.
  rewrite <- (concat_readChunks cuts (createReadStream inputFile fs)) in H.
  rewrite <- (take_drop k (readChunks cuts (createReadStream inputFile fs))) in H.
  rewrite concat_app in H. apply well_formed_app in H. apply H.
Qed.

(** X14: while the run streams, the output file holds at every moment the
    upper-cased text of the chunks gone through so far, in their order, and
    what it holds then is the beginning of what it holds in the end. *)
Theorem output_grows_chunk_by_chunk k cuts fs content :
  fs !! inputFile = Some content →
  files (after_chunks k cuts fs (N.of_nat (length content))) !! outputFile
  = Some (Buffer_from
            (toUpperCase (concat (take k (readChunks cuts (toString content))))))
  ∧ ∃ rest,
      files (main cuts fs) !! outputFile
      = Some (Buffer_from
                (toUpperCase (concat (take k (readChunks cuts (toString content)))))
              ++ rest).
Proof.
  intros Hfile.
  pose proof (run_chunks_well_formed k cuts fs) as Hwf.
  rewrite (createReadStream_content _ _ _ Hfile) in Hwf.
  split.
  - unfold after_chunks. rewrite (createReadStream_content _ _ _ Hfile).
    rewrite (pipe_output _ _ []); [reflexivity | assumption |].
    unfold start, createWriteStream. cbn [files]. apply lookup_insert_eq.
  - exists (Buffer_from
              (toUpperCase (concat (drop k (readChunks cuts (toString content)))))).
    rewrite (main_output _ _ _ Hfile).
    rewrite <- Buffer_from_app, <- toUpperCase_app, <- concat_app, take_drop.
    rewrite concat_readChunks. reflexivity.
Qed.

(** [lastLoggedProgress] does not go down along a stretch of chunks, on a
    total that is not zero. *)
Lemma pipe_lastLoggedProgress_mono chunks w l :
  (0 < totalSize (vars w))%N →
  lastLoggedProgress (vars w) = int l →
  ∃ l', lastLoggedProgress (vars (pipe chunks w)) = int l' ∧ (l ≤ l')%Z.
Proof.
  revert w l. induction chunks as [|s chunks IH]; intros w l Ht Hl.
  { exists l. split; [assumption | lia]. }
  cbn [pipe].
  pose proof (pipe_chunk_eq s w) as Hw1.
  rewrite (transform_reached _ _ l Ht Hl) in Hw1. cbv zeta in Hw1.
  destruct (Z.leb_spec (l + 10)
              (reached (processedSize (vars w) + N.of_nat (length (Buffer_from s)))
                       (totalSize (vars w)))) as [Hz|Hz].
  - destruct (IH (pipe_chunk s w)
                (reached (processedSize (vars w) + N.of_nat (length (Buffer_from s)))
                         (totalSize (vars w)))) as (l' & Hl' & Hle);
      [rewrite Hw1; exact Ht | rewrite Hw1; reflexivity |].
    exists l'. split; [assumption | lia].
  - destruct (IH (pipe_chunk s w) l) as (l' & Hl' & Hle);
      [rewrite Hw1; exact Ht | rewrite Hw1; reflexivity |].
    exists l'. split; [assumption | lia].
Qed.

Lemma after_chunks_le k k' cuts fs size :
  k ≤ k' →
  after_chunks k' cuts fs size
  = pipe (drop k (take k' (readChunks cuts (createReadStream inputFile fs))))
         (after_chunks k cuts fs size).
Proof.
  intros Hle. unfold after_chunks. rewrite <- pipe_app.
  replace (take k (readChunks cuts (createReadStream inputFile fs)))
    with (take k (take k' (readChunks cuts (createReadStream inputFile fs))))
    by (rewrite take_take; f_equal; lia).
  rewrite take_drop. reflexivity.
Qed.

(** X15: the variables never go back while the run streams: from [k]
    chunks to [k'] chunks later on, [totalSize] stays the size of the file,
    [processedSize] and [processedLines] do not decrease, and
    [lastLoggedProgress] is an integer that does not decrease. *)
Theorem variables_never_go_back k k' cuts fs size :
  stat inputFile fs = Some size →
  k ≤ k' →
  totalSize (vars (after_chunks k cuts fs size)) = size
  ∧ totalSize (vars (after_chunks k' cuts fs size)) = size
  ∧ (processedSize (vars (after_chunks k cuts fs size))
     <= processedSize (vars (after_chunks k' cuts fs size)))%N
  ∧ (processedLines (vars (after_chunks k cuts fs size))
     <= processedLines (vars (after_chunks k' cuts fs size)))%N
  ∧ ∃ l l',
      lastLoggedProgress (vars (after_chunks k cuts fs size)) = int l
      ∧ lastLoggedProgress (vars (after_chunks k' cuts fs size)) = int l'
      ∧ (l ≤ l')%Z.
Proof.
  intros Hstat Hle.
  rewrite !after_chunks_totalSize. split; [reflexivity |]. split; [reflexivity |].
  rewrite (after_chunks_le k k' cuts fs size Hle).
  split; [apply pipe_processedSize_mono |].
  split; [apply pipe_processedLines_mono |].
  destruct (after_chunks_reports k cuts fs size Hstat) as (_ & _ & _ & _ & _ & l & Hl).
  destruct (N.eq_dec size 0%N) as [E|E].
  - exists l, l. split; [assumption |]. split; [| lia].
    subst size. rewrite (no_bytes_no_chunks cuts fs Hstat), take_nil, drop_nil.
    exact Hl.
  - destruct (pipe_lastLoggedProgress_mono
                (drop k (take k' (readChunks cuts (createReadStream inputFile fs))))
                (after_chunks k cuts fs size) l) as (l' & Hl' & Hll');
      [rewrite after_chunks_totalSize; lia | assumption |].
    exists l, l'. auto.
Qed.

(** *** Line feeds, byte by byte *)

(** The decoder turns line feeds into line feeds and nothing else into a
    line feed, whatever the bytes. *)
Lemma occurrences_LF_utf8_decode b :
  occurrences LF (utf8_decode b) = occurrences LF b.
Proof.
  remember (length b) as n eqn:Hn.
  assert (Hle : length b ≤ n) by lia. clear Hn. revert b Hle.
  induction n as [|n IH]; intros [|b0 r0] Hle; try reflexivity;
    cbn [length] in Hle; [lia |].
  assert (Hcons : ∀ c s1 d s2,
    (0x80 <= c)%N → (0x80 <= d)%N →
    occurrences LF s1 = occurrences LF s2 →
    occurrences LF (c :: s1) = occurrences LF (d :: s2)).
  { intros c s1 d s2 Hc Hd E. rewrite !occurrences_cons, E.
    destruct (N.eqb_spec c LF) as [E1|E1]; [unfold LF in E1; lia |].
    destruct (N.eqb_spec d LF) as [E2|E2]; [unfold LF in E2; lia |].
    reflexivity. }
  assert (Hskip : ∀ d s, (0x80 <= d)%N → occurrences LF (d :: s) = occurrences LF s).
  { intros d s Hd. rewrite occurrences_cons.
    destruct (N.eqb_spec d LF) as [E|E]; [unfold LF in E; lia | reflexivity]. }
  assert (Hrepl : (0x80 <= REPLACEMENT)%N) by (unfold REPLACEMENT; lia).
  cbn [utf8_decode].
  destruct (N.ltb_spec b0 0x80) as [H0|H0].
  { rewrite !(occurrences_cons _ b0). f_equal. apply IH. lia. }
  destruct (in_range 0xC2 0xDF b0) eqn:E2.
  { destruct r0 as [|b1 r1]; [apply Hcons; auto |].
    destruct (is_cont b1) eqn:C1.
    - range_facts. rewrite (Hskip b0 (b1 :: r1)), (Hskip b1 r1) by lia.
      rewrite Hskip by lia. apply IH. cbn [length] in *. lia.
    - apply Hcons; auto. apply IH. lia. }
  destruct (in_range 0xE0 0xEF b0) eqn:E3.
  { destruct r0 as [|b1 r1]; [apply Hcons; auto |].
    destruct (in_range _ _ b1) eqn:C1; [| apply Hcons; auto; apply IH; lia].
    assert (H1 : (0x80 <= b1)%N) by (range_facts; lia).
    destruct r1 as [|b2 r2].
    { rewrite (Hskip b0), (Hskip b1), (Hskip REPLACEMENT) by lia. reflexivity. }
    destruct (is_cont b2) eqn:C2.
    - assert (H2 : (0x80 <= b2)%N) by (range_facts; lia).
      rewrite (Hskip b0), (Hskip b1), (Hskip b2) by lia.
      rewrite Hskip by (range_facts; lia). apply IH. cbn [length] in *. lia.
    - rewrite (Hskip b0), (Hskip b1), (Hskip REPLACEMENT) by lia.
      apply IH. cbn [length] in *. lia. }
  destruct (in_range 0xF0 0xF4 b0) eqn:E4; [| apply Hcons; auto; apply IH; lia].
  destruct r0 as [|b1 r1]; [apply Hcons; auto |].
  destruct (in_range _ _ b1) eqn:C1; [| apply Hcons; auto; apply IH; lia].
  assert (H1 : (0x80 <= b1)%N) by (range_facts; lia).
  destruct r1 as [|b2 r2].
  { rewrite (Hskip b0), (Hskip b1), (Hskip REPLACEMENT) by lia. reflexivity. }
  destruct (is_cont b2) eqn:C2.
  - assert (H2 : (0x80 <= b2)%N) by (range_facts; lia).
    destruct r2 as [|b3 r3].
    { rewrite (Hskip b0), (Hskip b1), (Hskip b2), (Hskip REPLACEMENT) by lia.
      reflexivity. }
    destruct (is_cont b3) eqn:C3.
    + assert (H3 : (0x80 <= b3)%N) by (range_facts; lia).
      rewrite (Hskip b0), (Hskip b1), (Hskip b2), (Hskip b3) by lia.
      rewrite Hskip by (range_facts; lia). apply IH. cbn [length] in *. lia.
    + rewrite (Hskip b0), (Hskip b1), (Hskip b2), (Hskip REPLACEMENT) by lia.
      apply IH. cbn [length] in *. lia.
  - rewrite (Hskip b0), (Hskip b1), (Hskip REPLACEMENT) by lia.
    apply IH. cbn [length] in *. lia.
Qed.

(** X16: whatever bytes the input file holds, well-formed UTF-8 or not,
    [processedLines] ends at the number of bytes of the file that are a
    line feed, and that is the total of lines that [finish] logs. *)
Theorem processedLines_counts_line_feed_bytes cuts fs content :
  fs !! inputFile = Some content →
  processedLines (vars (main cuts fs)) = N.of_nat (occurrences LF content)
  ∧ LogTotalLines (N.of_nat (occurrences LF content)) ∈ console (main cuts fs).
Proof.
  intros Hfile.
  destruct (main_counters cuts fs content Hfile) as (_ & _ & Hn).
  unfold toString in Hn. rewrite occurrences_LF_utf8_decode in Hn.
  split; [assumption |].
  rewrite <- Hn, (main_streams _ _ _ (stat_Some _ _ _ Hfile)).
  unfold on_finish. cbn [console vars].
  apply elem_of_app. right. right. left.
Qed.

(** X17: every chunk the read stream emits reaches [chunk.toString()] in
    the transform as the string it was: encoding it for the transform and
    decoding it there loses nothing, whatever bytes the file holds. *)
Theorem transform_decodes_what_was_read cuts fs :
  Forall (λ s, toString (Buffer_from s) = s)
         (readChunks cuts (createReadStream inputFile fs)).
Proof.
  pose proof (run_chunks_well_formed
                (length (readChunks cuts (createReadStream inputFile fs))) cuts fs)
    as Hwf.
  rewrite firstn_all in Hwf. apply well_formed_concat in Hwf.
  eapply Forall_impl; [exact Hwf |]. cbn. intros s Hs.
  apply toString_Buffer_from. assumption.
Qed.

(** *** Small chunks *)

(** The percentage computed for [p] of [t] bytes is at least the one
    computed for a quotient that is not above [p / t]. *)
Lemma reached_ge_at (p t : N) (n c : Z) (d : positive) :
  (0 < t)%N → (0 ≤ n)%Z →
  (n * Z.of_N t ≤ Z.of_N p * Z.pos d)%Z →
  (c ≤ Qfloor (binary64 (binary64 (n # d) * 100)))%Z →
  (c ≤ reached p t)%Z.
Proof.
  intros Ht Hn Hle Hc. etransitivity; [exact Hc |].
  unfold reached. apply Qfloor_resp_le.
  destruct (quotient_facts p t Ht) as (HP & HT & HI & E & Hx).
  assert (H0 : (0 <= n # d)%Q).
  { unfold Qle. cbn. lia. }
  assert (Hq : (n # d <= inject_Z (Z.of_N p) / inject_Z (Z.of_N t))%Q).
  { apply Qle_shift_div_l; [lra |].
    unfold Qle, Qmult, inject_Z. cbn [Qnum Qden]. lia. }
  pose proof (binary64_mono _ _ H0 Hq) as M.
  pose proof (binary64_nonneg _ H0) as N1.
  apply binary64_mono; lra.
Qed.

(** And at most the one computed for a quotient that is not below. *)
Lemma reached_le_at (p t : N) (n c : Z) (d : positive) :
  (0 < t)%N →
  (Z.of_N p * Z.pos d ≤ n * Z.of_N t)%Z →
  (Qfloor (binary64 (binary64 (n # d) * 100)) ≤ c)%Z →
  (reached p t ≤ c)%Z.
Proof.
  intros Ht Hle Hc. etransitivity; [| exact Hc].
  unfold reached. apply Qfloor_resp_le.
  destruct (quotient_facts p t Ht) as (HP & HT & HI & E & Hx).
  assert (Hq : (inject_Z (Z.of_N p) / inject_Z (Z.of_N t) <= n # d)%Q).
  { apply Qle_shift_div_r; [lra |].
    unfold Qle, Qmult, inject_Z. cbn [Qnum Qden]. lia. }
  pose proof (binary64_mono _ _ Hx Hq) as M.
  pose proof (binary64_nonneg _ Hx) as N1.
  apply binary64_mono; lra.
Qed.

(** One ten of the step below: [na / 2^110] is a quotient at which the
    doubles give [c] already, [nb / 2^110] one at which they give no more
    than [c]; a quotient below the first, of a total below 2^53, is with a
    hundredth more not above the second. *)
Ltac small_step na nb c :=
  match goal with
  | Ht : (0 < ?t)%N, Hp : (reached ?p ?t < _)%Z
    |- (reached (?p + ?len) ?t ≤ _)%Z =>
    let C := fresh "C" in
    let Hx := fresh "Hx" in
    assert (Hx : (Z.of_N p * 2 ^ 110 < na * Z.of_N t)%Z);
    [ destruct (Z.ltb_spec (Z.of_N p * 2 ^ 110) (na * Z.of_N t)) as [|C];
      [ assumption
      | exfalso;
        pose proof (reached_ge_at p t na c (2 ^ 110) Ht ltac:(lia) C
                      ltac:(vm_compute; discriminate));
        lia ]
    | apply (reached_le_at _ _ nb c (2 ^ 110) Ht);
      [ change (Z.pos (2 ^ 110)) with (2 ^ 110)%Z; lia
      | vm_compute; discriminate ] ]
  end.

(** On a total below 2^53, a chunk of a hundredth of the total at most
    does not take the percentage computed from below a ten to above it. *)
Lemma reached_small_step (p len t : N) (j : Z) :
  (0 < t)%N → (Z.of_N t < 2 ^ 53)%Z →
  (100 * len <= t)%N → (p + len <= t)%N →
  (0 ≤ j ≤ 10)%Z →
  (reached p t < 10 * j + 10)%Z →
  (reached (p + len) t ≤ 10 * j + 10)%Z.
Proof.
  intros Ht H53 Hlen Hall Hj Hp.
  pose proof (reached_le_100 (p + len) t Hall) as H100.
  assert (Hcases : (j = 0 ∨ j = 1 ∨ j = 2 ∨ j = 3 ∨ j = 4 ∨ j = 5 ∨ j = 6
                    ∨ j = 7 ∨ j = 8 ∨ 9 ≤ j)%Z) by lia.
  destruct Hcases as [->|[->|[->|[->|[->|[->|[->|[->|[->|H9]]]]]]]]];
    [ .. | lia ]; cbn [Z.mul Z.add Pos.mul Pos.add] in Hp |- *.
  - small_step 129807421463370670897424047800321%Z
               142788163609707751497965334691840%Z 10%Z.
  - small_step 259614842926741341794848095600641%Z
               272595585073078422395389382492160%Z 20%Z.
  - small_step 389422264390112021699471398141953%Z
               402403006536449102300012685033472%Z 30%Z.
  - small_step 519229685853482683589696191201281%Z
               532210427999819764190237478092800%Z 40%Z.
  - small_step 649037107316853417537515022188544%Z
               662017849463190462109259290116095%Z 50%Z.
  - small_step 778844528780224043398942796283905%Z
               791825270926561123999484083175424%Z 60%Z.
  - small_step 908651950243594705289167589343232%Z
               921632692389931785889708876234751%Z 70%Z.
  - small_step 1038459371706965367179392382402561%Z
               1051440113853302447779933669294080%Z 80%Z.
  - small_step 1168266793170336173184805251317761%Z
               1181247535316673253785346538209280%Z 90%Z.
Qed.

Lemma length_decades l n : length (decades l n) = n.
Proof. revert l. induction n as [|n IH]; intros l; cbn; [| rewrite IH]; reflexivity. Qed.

(** With chunks that small no ten is passed over: the messages of a
    stretch are the tens that follow the percentage logged last. *)
Lemma pipe_small_chunks chunks t w j :
  (0 < t)%N → (Z.of_N t < 2 ^ 53)%Z →
  Forall (λ s, (100 * N.of_nat (length (Buffer_from s)) <= t)%N) chunks →
  totalSize (vars w) = t →
  (processedSize (vars (pipe chunks w)) <= t)%N →
  (0 ≤ j ≤ 10)%Z →
  lastLoggedProgress (vars w) = int (10 * j) →
  (10 * j ≤ reached (processedSize (vars w)) t < 10 * j + 10)%Z →
  ∃ n,
    reports (console (pipe chunks w))
    = reports (console w) ++ map int (decades (10 * j) n)
    ∧ lastLoggedProgress (vars (pipe chunks w)) = int (10 * j + 10 * Z.of_nat n)
    ∧ (10 * j + 10 * Z.of_nat n
       ≤ reached (processedSize (vars (pipe chunks w))) t
       < 10 * j + 10 * Z.of_nat n + 10)%Z.
Proof.
  intros Hpos H53 Hsmall. revert w j.
  induction Hsmall as [|s chunks Hs _ IH]; intros w j Ht Hall Hj Hl Hlag.
  { exists 0. cbn. rewrite app_nil_r, Z.add_0_r. auto. }
  cbn [pipe] in Hall |- *. subst t.
  pose proof (pipe_chunk_eq s w) as Hw1.
  rewrite (transform_reached _ _ (10 * j) Hpos Hl) in Hw1. cbv zeta in Hw1.
  set (p1 := (processedSize (vars w) + N.of_nat (length (Buffer_from s)))%N) in *.
  assert (Hp1 : (p1 <= totalSize (vars w))%N).
  { etransitivity; [| exact Hall].
    etransitivity; [| apply pipe_processedSize_mono].
    rewrite Hw1. destruct (_ <=? _)%Z; cbn [vars fst processedSize]; lia. }
  pose proof (reached_small_step (processedSize (vars w))
                (N.of_nat (length (Buffer_from s))) (totalSize (vars w)) j
                Hpos H53 Hs Hp1 Hj ltac:(lia)) as Hstep.
  fold p1 in Hstep.
  pose proof (reached_mono (processedSize (vars w)) p1 (totalSize (vars w))
                ltac:(unfold p1; lia)) as Hmono.
  pose proof (reached_le_100 p1 (totalSize (vars w)) Hp1) as H100.
  destruct (Z.leb_spec (10 * j + 10) (reached p1 (totalSize (vars w)))) as [Hz|Hz].
  - assert (E : reached p1 (totalSize (vars w)) = (10 * (j + 1))%Z) by lia.
    rewrite E in Hw1.
    destruct (IH (pipe_chunk s w) (j + 1)%Z) as (n & Hr & Hlast & Hlag').
    + rewrite Hw1. reflexivity.
    + exact Hall.
    + lia.
    + rewrite Hw1. reflexivity.
    + rewrite Hw1. cbn [vars fst snd processedSize totalSize]. lia.
    + exists (S n).
      split; [| split; [rewrite Hlast; f_equal; lia | lia]].
      rewrite Hr, Hw1. cbn [console]. rewrite reports_app. cbn [reports flat_map app].
      rewrite <- app_assoc. cbn [app decades map].
      replace (10 * j + 10)%Z with (10 * (j + 1))%Z by lia. reflexivity.
  - destruct (IH (pipe_chunk s w) j) as (n & Hr & Hlast & Hlag').
    + rewrite Hw1. reflexivity.
    + exact Hall.
    + exact Hj.
    + rewrite Hw1. reflexivity.
    + rewrite Hw1. cbn [vars fst snd processedSize totalSize]. lia.
    + exists n.
      split; [| split; assumption].
      rewrite Hr, Hw1. cbn [console]. rewrite app_nil_r. reflexivity.
Qed.

(** The bound on the total is needed: of 22000000000000000 bytes, more
    than 2^53 and more than a double counts one by one, a hundredth more
    takes the percentage computed from 49 to 51. *)
Lemma reached_steps_over_50 :
  reached 10999999999999999 22000000000000000 = 49%Z
  ∧ (100 * 220000000000000 <= 22000000000000000)%N
  ∧ reached (10999999999999999 + 220000000000000) 22000000000000000 = 51%Z.
Proof. repeat split; vm_compute; try reflexivity. discriminate. Qed.

(** X18: when no chunk holds more than a hundredth of the bytes of the
    file, as for a large file read in chunks of 64 KiB, the run on a text
    held as UTF-8 in fewer than 2^53 bytes, the sizes that a double counts
    exactly, logs exactly the ten percentages 10, 20, up to 100. *)
Theorem small_chunks_log_every_ten cuts fs text :
  well_formed text = true →
  text ≠ [] →
  fs !! inputFile = Some (Buffer_from text) →
  (Z.of_nat (length (Buffer_from text)) < 2 ^ 53)%Z →
  Forall (λ s, 100 * length (Buffer_from s) ≤ length (Buffer_from text))
         (readChunks cuts text) →
  reports (console (main cuts fs))
  = map int [10; 20; 30; 40; 50; 60; 70; 80; 90; 100]%Z.
Proof.
  intros Hwf Hne Hfile H53 Hsmall.
  pose proof (stat_Some _ _ _ Hfile) as Hstat.
  pose proof (Buffer_from_nonempty text Hne) as Hpos.
  destruct (main_counters cuts fs _ Hfile) as (_ & Hp & _).
  rewrite toString_Buffer_from in Hp by assumption.
  revert Hp. rewrite (main_streams _ _ _ Hstat), reports_on_finish.
  cbn [on_finish vars]. rewrite (createReadStream_text _ _ _ Hwf Hfile).
  intros Hp.
  set (size := N.of_nat (length (Buffer_from text))) in *.
  destruct (pipe_small_chunks (readChunks cuts text) size
              (start size (createWriteStream outputFile fs)) 0)
    as (n & Hr & _ & Hlag).
  { unfold size. lia. }
  { unfold size. lia. }
  { eapply Forall_impl; [exact Hsmall |]. cbn. intros s Hs. unfold size. lia. }
  { reflexivity. }
  { rewrite Hp. lia. }
  { lia. }
  { reflexivity. }
  { cbn [start vars processedSize]. rewrite reached_0. lia. }
  rewrite Hp in Hlag.
  rewrite reached_all in Hlag by lia.
  assert (n = 10) by lia. subst n.
  rewrite Hr. reflexivity.
Qed.
End Script.

(** ** The doubles at concrete inputs

    Where the rounding shows: 29 bytes of 100 give 28.999999999999996, so
    that 28 is logged where exact arithmetic has 29; 100 bytes read as 19,
    10 and the rest leave [lastLoggedProgress] at 19 when 29 are through;
    and at 57 of 100 with 47 logged last the doubles give
    56.99999999999999 and nothing is logged. *)
Lemma twenty_nine_of_a_hundred :
  progress (mkRunState 100 29 (int 0) 0)
  = Num (8162774324609023 # 281474976710656)
  ∧ reached 29 100 = 28%Z
  ∧ percent 29 100 = 29%Z
  ∧ reports (console (main ascii_only [29%positive]
                        {[ inputFile := replicate 100 97%N ]}))
    = [int 28; int 100]
  ∧ lastLoggedProgress
      (vars (after_chunks ascii_only 2 [19%positive; 10%positive]
               {[ inputFile := replicate 100 97%N ]} 100))
    = int 19
  ∧ transform ascii_only (replicate 10 97%N) (mkRunState 100 47 (int 47) 0)
    = (mkRunState 100 57 (int 47) 0, replicate 10 65%N, []).
Proof. repeat split; vm_compute; reflexivity. Qed.

(** ** The statements at concrete inputs *)

(** C1 as the specification words it fails: with no input file the probe
    fails, and still the output file, absent before the run, is there after
    it; one that held data is empty after it. *)
Lemma output_file_is_opened_before_the_probe :
  stat inputFile (∅ : gmap string Buffer) = None
  ∧ (∅ : gmap string Buffer) !! outputFile = None
  ∧ files (main ascii_only [] ∅) !! outputFile = Some []
  ∧ stat inputFile ({[ outputFile := abcd ]} : gmap string Buffer) = None
  ∧ files (main ascii_only [] {[ outputFile := abcd ]}) !! outputFile
    ≠ ({[ outputFile := abcd ]} : gmap string Buffer) !! outputFile.
Proof.
  repeat split; try (vm_compute; reflexivity).
  vm_compute. discriminate.
Qed.

Lemma stat_failure_stops_the_run_witness :
  stat inputFile ({[ outputFile := abcd ]} : gmap string Buffer) = None
  ∧ console (main ascii_only [] {[ outputFile := abcd ]}) = [ErrStat]
  ∧ vars (main ascii_only [] {[ outputFile := abcd ]}) = mkRunState 0 0 (Num 0) 0
  ∧ files (main ascii_only [] {[ outputFile := abcd ]}) !! outputFile = Some []
  ∧ ∀ path, path ≠ outputFile →
      files (main ascii_only [] {[ outputFile := abcd ]}) !! path
      = ({[ outputFile := abcd ]} : gmap string Buffer) !! path.
Proof.
  split; [reflexivity |].
  apply (stat_failure_stops_the_run ascii_only [] {[ outputFile := abcd ]}).
  reflexivity.
Defined.

(** C2 as the specification words it fails: the four bytes of a Latin-1
    file are read to the end, the first three as [caf], the last one, left
    over at the end of the file, as U+FFFD, which the transform receives as
    three bytes: [processedSize] ends at 6, the size is 4. *)
Lemma latin1_input_counts_above_its_size :
  stat inputFile ({[ inputFile := cafe_latin1 ]} : gmap string Buffer) = Some 4%N
  ∧ readChunks [3%positive] (createReadStream inputFile {[ inputFile := cafe_latin1 ]})
    = [[99; 97; 102]; [REPLACEMENT]]%N
  ∧ LogComplete
    ∈ console (main ascii_only [3%positive] {[ inputFile := cafe_latin1 ]})
  ∧ totalSize (vars (main ascii_only [3%positive] {[ inputFile := cafe_latin1 ]}))
    = 4%N
  ∧ processedSize (vars (main ascii_only [3%positive] {[ inputFile := cafe_latin1 ]}))
    = 6%N.
Proof.
  repeat split; try (vm_compute; reflexivity).
  vm_compute. do 2 right. left.
Qed.

Lemma processedSize_at_the_end_witness :
  ({[ inputFile := hello_world ]} : gmap string Buffer) !! inputFile
  = Some hello_world
  ∧ LogComplete ∈ console (main ascii_only [6%positive] {[ inputFile := hello_world ]})
  ∧ stat inputFile ({[ inputFile := hello_world ]} : gmap string Buffer)
    = Some (totalSize (vars (main ascii_only [6%positive] {[ inputFile := hello_world ]})))
  ∧ processedSize (vars (main ascii_only [6%positive] {[ inputFile := hello_world ]}))
    = N.of_nat (length (Buffer_from (toString hello_world)))
  ∧ ∀ text,
      well_formed text = true →
      hello_world = Buffer_from text →
      processedSize (vars (main ascii_only [6%positive] {[ inputFile := hello_world ]}))
      = totalSize (vars (main ascii_only [6%positive] {[ inputFile := hello_world ]})).
Proof.
  split; [reflexivity |].
  apply (processedSize_at_the_end ascii_only [6%positive]
           {[ inputFile := hello_world ]} hello_world).
  reflexivity.
Defined.

(** C3 as the specification words it fails: four bytes read as a chunk of
    one and a chunk of three log 25 and then 100, and 25 is no multiple of
    ten; and the Latin-1 file, counted above its size, logs 75 and 150. *)
Lemma reports_are_not_multiples_of_ten :
  reports (console (main ascii_only [1%positive] {[ inputFile := abcd ]}))
  = [int 25; int 100]
  ∧ ¬ Forall (λ v, ∃ k : Z, v = int (10 * k))
        (reports (console (main ascii_only [1%positive] {[ inputFile := abcd ]})))
  ∧ reports (console (main ascii_only [3%positive] {[ inputFile := cafe_latin1 ]}))
    = [int 75; int 150].
Proof.
  assert (E : reports (console (main ascii_only [1%positive] {[ inputFile := abcd ]}))
              = [int 25; int 100]) by (vm_compute; reflexivity).
  split; [exact E |]. split; [| vm_compute; reflexivity].
  rewrite E. intros H.
  apply Forall_cons in H as [[k Hk] _].
  unfold int, inject_Z in Hk. injection Hk as Hk. lia.
Qed.

Lemma reports_ascend_by_ten_witness :
  well_formed abcd = true
  ∧ ({[ inputFile := abcd ]} : gmap string Buffer) !! inputFile
    = Some (Buffer_from abcd)
  ∧ ∃ zs : list Z,
      reports (console (main ascii_only [1%positive] {[ inputFile := abcd ]}))
      = map int zs
      ∧ Forall (λ z, (10 ≤ z)%Z) zs
      ∧ ascending 0 zs
      ∧ Forall (λ z, ∃ k,
                  reports (console (after_chunks ascii_only (S k) [1%positive]
                                      {[ inputFile := abcd ]} 4))
                  = reports (console (after_chunks ascii_only k [1%positive]
                                        {[ inputFile := abcd ]} 4))
                    ++ [int z]
                  ∧ Math_floor
                      (progress (vars (after_chunks ascii_only (S k) [1%positive]
                                         {[ inputFile := abcd ]} 4)))
                    = int z) zs
      ∧ Forall (λ z, (z ≤ 100)%Z) zs.
Proof.
  split; [reflexivity |]. split; [reflexivity |].
  destruct (reports_ascend_by_ten ascii_only [1%positive] {[ inputFile := abcd ]})
    as (zs & Hr & Hlow & Ha & _ & _ & Hfloor & Hhigh).
  exists zs. split; [exact Hr |]. split; [exact Hlow |]. split; [exact Ha |].
  split; [apply (Hfloor 4%N); reflexivity |].
  apply (Hhigh abcd); reflexivity.
Defined.

Lemma output_is_the_uppercased_input_witness :
  ({[ inputFile := hello_world ]} : gmap string Buffer) !! inputFile
  = Some hello_world
  ∧ files (main ascii_only [6%positive] {[ inputFile := hello_world ]}) !! outputFile
    = Some (Buffer_from (toUpperCase ascii_only (toString hello_world)))
  ∧ ∀ chunks w,
      concat chunks = toString hello_world →
      files w !! outputFile = Some [] →
      files (pipe ascii_only chunks w) !! outputFile
      = Some (Buffer_from (toUpperCase ascii_only (toString hello_world))).
Proof.
  split; [reflexivity |].
  apply (output_is_the_uppercased_input ascii_only [6%positive]
           {[ inputFile := hello_world ]} hello_world).
  reflexivity.
Defined.

(** C5 as the specification words it fails: with nothing logged yet, a
    chunk of two bytes out of four goes past the thresholds 10 to 50; the
    one message carries 50, not 10, the first threshold passed. *)
Lemma report_is_not_the_first_threshold :
  (transform ascii_only [97; 98]%N (mkRunState 4 0 (int 0) 0)).2
  = [LogProgress (int 50) 0]
  ∧ lastLoggedProgress
      (transform ascii_only [97; 98]%N (mkRunState 4 0 (int 0) 0)).1.1
    = int 50
  ∧ int 50 ≠ int (0 + 10).
Proof.
  split; [vm_compute; reflexivity |]. split; [vm_compute; reflexivity |].
  discriminate.
Qed.

Lemma one_report_with_the_percentage_reached_witness :
  (0 < totalSize (mkRunState 4 0 (int 0) 0))%N
  ∧ lastLoggedProgress (mkRunState 4 0 (int 0) 0) = int 0
  ∧ let st' := (transform ascii_only [97; 98]%N (mkRunState 4 0 (int 0) 0)).1.1 in
    let log := (transform ascii_only [97; 98]%N (mkRunState 4 0 (int 0) 0)).2 in
    let z := reached (processedSize st') 4 in
    Math_floor (progress st') = int z
    ∧ length log ≤ 1
    ∧ ((z < 0 + 10)%Z → log = [] ∧ lastLoggedProgress st' = int 0)
    ∧ ((0 + 10 ≤ z)%Z →
       log = [LogProgress (int z) (processedLines st')]
       ∧ lastLoggedProgress st' = int z)
    ∧ ((Z.of_N (processedSize st') < 2 ^ 44)%Z →
       (percent (processedSize st') 4 - 1 ≤ z ≤ percent (processedSize st') 4)%Z).
Proof.
  split; [reflexivity |]. split; [reflexivity |].
  apply (one_report_with_the_percentage_reached ascii_only [97; 98]%N
           (mkRunState 4 0 (int 0) 0) 0); reflexivity.
Defined.

(** C7 as the specification words it fails, in both its parts.  One byte
    that no UTF-8 sequence holds is read as U+FFFD; the run completes with
    [processedSize] at 3 for a [totalSize] of 1.  And in a file of
    79010519778503 bytes, with 57 logged last, the byte that brings
    [processedSize] to 52937048251597 makes the doubles give 67, which is
    logged and stored, while floor (100 * processedSize / totalSize) is
    66. *)
Lemma ill_formed_input_exceeds_totalSize :
  stat inputFile ({[ inputFile := [255%N] ]} : gmap string Buffer) = Some 1%N
  ∧ LogComplete ∈ console (main ascii_only [] {[ inputFile := [255%N] ]})
  ∧ totalSize (vars (main ascii_only [] {[ inputFile := [255%N] ]})) = 1%N
  ∧ processedSize (vars (main ascii_only [] {[ inputFile := [255%N] ]})) = 3%N
  ∧ ¬ (processedSize (vars (main ascii_only [] {[ inputFile := [255%N] ]}))
       <= totalSize (vars (main ascii_only [] {[ inputFile := [255%N] ]})))%N
  ∧ transform ascii_only [97%N]
      (mkRunState 79010519778503 52937048251596 (int 57) 0)
    = (mkRunState 79010519778503 52937048251597 (int 67) 0,
       [65%N], [LogProgress (int 67) 0])
  ∧ percent 52937048251597 79010519778503 = 66%Z
  ∧ ¬ (67 ≤ percent 52937048251597 79010519778503)%Z.
Proof.
  repeat split; try (vm_compute; reflexivity).
  - vm_compute. do 1 right. left.
  - vm_compute. intros H. apply H. reflexivity.
  - vm_compute. intros H. apply H. reflexivity.
Qed.

Lemma processedSize_and_lastLoggedProgress_bounded_witness :
  ({[ inputFile := abcd ]} : gmap string Buffer) !! inputFile = Some abcd
  ∧ let size := N.of_nat (length abcd) in
    let w := after_chunks ascii_only 0 [1%positive] {[ inputFile := abcd ]} size in
    let w' := after_chunks ascii_only 1 [1%positive] {[ inputFile := abcd ]} size in
    stat inputFile ({[ inputFile := abcd ]} : gmap string Buffer)
    = Some (totalSize (vars w))
    ∧ (lastLoggedProgress (vars w') ≠ lastLoggedProgress (vars w) →
       ∃ z, lastLoggedProgress (vars w') = int z
            ∧ Math_floor (progress (vars w')) = int z
            ∧ ((Z.of_N (processedSize (vars w')) < 2 ^ 44)%Z →
               (z ≤ percent (processedSize (vars w')) (totalSize (vars w')))%Z))
    ∧ ∀ text,
        well_formed text = true →
        abcd = Buffer_from text →
        (processedSize (vars w) <= totalSize (vars w))%N.
Proof.
  split; [reflexivity |].
  apply (processedSize_and_lastLoggedProgress_bounded ascii_only 0 [1%positive]
           {[ inputFile := abcd ]} abcd).
  reflexivity.
Defined.

Lemma processedLines_counts_line_feeds_witness :
  ({[ inputFile := [104; 13; 10; 105; 13]%N ]} : gmap string Buffer) !! inputFile
  = Some [104; 13; 10; 105; 13]%N
  ∧ ({[ inputFile := [104; 10; 105]%N ]} : gmap string Buffer) !! inputFile
    = Some [104; 10; 105]%N
  ∧ toString [104; 10; 105]%N
    = filter (λ c, c ≠ CR) (toString [104; 13; 10; 105; 13]%N)
  ∧ processedLines
      (vars (main ascii_only [2%positive] {[ inputFile := [104; 13; 10; 105; 13]%N ]}))
    = N.of_nat (occurrences LF (toString [104; 13; 10; 105; 13]%N))
  ∧ processedLines
      (vars (main ascii_only [] {[ inputFile := [104; 13; 10; 105; 13]%N ]}))
    = processedLines
        (vars (main ascii_only [2%positive] {[ inputFile := [104; 13; 10; 105; 13]%N ]}))
  ∧ processedLines (vars (main ascii_only [] {[ inputFile := [104; 10; 105]%N ]}))
    = processedLines
        (vars (main ascii_only [2%positive] {[ inputFile := [104; 13; 10; 105; 13]%N ]})).
Proof.
  split; [reflexivity |]. split; [reflexivity |]. split; [reflexivity |].
  apply (processedLines_counts_line_feeds ascii_only [2%positive] []
           {[ inputFile := [104; 13; 10; 105; 13]%N ]}
           {[ inputFile := [104; 10; 105]%N ]}
           [104; 13; 10; 105; 13]%N [104; 10; 105]%N); reflexivity.
Defined.

(** C10 as the specification words it fails: in a file of
    7000000000000001 bytes with nothing logged yet, the byte that brings
    [processedSize] to 700000000000000 makes the doubles give 10.0, and 10
    is logged, while [processedSize] is still below a tenth of the size. *)
Lemma first_report_below_ten_percent :
  transform ascii_only [97%N]
    (mkRunState 7000000000000001 699999999999999 (int 0) 0)
  = (mkRunState 7000000000000001 700000000000000 (int 10) 0,
     [65%N], [LogProgress (int 10) 0])
  ∧ ¬ (10 * Z.of_N 7000000000000001 ≤ 100 * Z.of_N 700000000000000)%Z.
Proof.
  split; [vm_compute; reflexivity |].
  vm_compute. intros H. apply H. reflexivity.
Qed.

Lemma no_report_before_ten_percent_witness :
  stat inputFile ({[ inputFile := abcd ]} : gmap string Buffer) = Some 4%N
  ∧ reports (console (after_chunks ascii_only 1 [1%positive] {[ inputFile := abcd ]} 4))
    ≠ []
  ∧ (10 ≤ reached (processedSize
                     (vars (after_chunks ascii_only 1 [1%positive]
                              {[ inputFile := abcd ]} 4))) 4)%Z
  ∧ (10 * Z.of_N 4
     ≤ 100 * Z.of_N (processedSize
                       (vars (after_chunks ascii_only 1 [1%positive]
                                {[ inputFile := abcd ]} 4))))%Z.
Proof.
  split; [reflexivity |]. split; [vm_compute; discriminate |].
  destruct (no_report_before_ten_percent ascii_only [1%positive] {[ inputFile := abcd ]})
    as (zs & _ & _ & _ & Hlater).
  destruct (Hlater 1 4%N) as [H10 Hexact]; [reflexivity | vm_compute; discriminate |].
  split; [exact H10 |]. apply Hexact. vm_compute. reflexivity.
Defined.

(** ** More of the script, at concrete inputs *)

Lemma only_the_output_file_is_written_witness :
  inputFile ≠ outputFile
  ∧ files (main ascii_only [1%positive] {[ inputFile := abcd ]}) !! inputFile
    = ({[ inputFile := abcd ]} : gmap string Buffer) !! inputFile.
Proof.
  split; [discriminate |].
  apply (only_the_output_file_is_written ascii_only [1%positive]
           {[ inputFile := abcd ]} inputFile).
  discriminate.
Defined.

Lemma console_of_a_streamed_run_witness :
  stat inputFile ({[ inputFile := abcd ]} : gmap string Buffer) = Some 4%N
  ∧ ∃ log,
      console (main ascii_only [1%positive] {[ inputFile := abcd ]})
      = log ++ [LogComplete;
                LogTotalLines
                  (processedLines
                     (vars (main ascii_only [1%positive] {[ inputFile := abcd ]})));
                LogElapsed]
      ∧ Forall (λ e, is_progress e = true) log
      ∧ length log
        ≤ length (readChunks [1%positive]
                    (createReadStream inputFile {[ inputFile := abcd ]})).
Proof.
  split; [reflexivity |].
  apply (console_of_a_streamed_run ascii_only [1%positive]
           {[ inputFile := abcd ]} 4%N).
  reflexivity.
Defined.

Lemma at_most_ten_progress_messages_witness :
  well_formed abcd = true
  ∧ ({[ inputFile := abcd ]} : gmap string Buffer) !! inputFile
    = Some (Buffer_from abcd)
  ∧ length (reports (console (main ascii_only [1%positive] {[ inputFile := abcd ]})))
    ≤ 10.
Proof.
  split; [reflexivity |]. split; [reflexivity |].
  apply (at_most_ten_progress_messages ascii_only [1%positive]
           {[ inputFile := abcd ]} abcd); reflexivity.
Defined.

Lemma progress_lags_less_than_ten_points_witness :
  stat inputFile ({[ inputFile := abcd ]} : gmap string Buffer) = Some 4%N
  ∧ (0 < 4)%N
  ∧ ∃ l z : Z,
      lastLoggedProgress
        (vars (after_chunks ascii_only 1 [1%positive] {[ inputFile := abcd ]} 4))
      = int l
      ∧ Math_floor
          (progress
             (vars (after_chunks ascii_only 1 [1%positive] {[ inputFile := abcd ]} 4)))
        = int z
      ∧ (l ≤ z < l + 10)%Z.
Proof.
  split; [reflexivity |]. split; [reflexivity |].
  apply (progress_lags_less_than_ten_points ascii_only 1 [1%positive]
           {[ inputFile := abcd ]} 4%N); reflexivity.
Defined.

Lemma last_report_is_above_90_witness :
  well_formed abcd = true
  ∧ abcd ≠ []
  ∧ ({[ inputFile := abcd ]} : gmap string Buffer) !! inputFile
    = Some (Buffer_from abcd)
  ∧ ∃ z : Z,
      last (reports (console (main ascii_only [1%positive] {[ inputFile := abcd ]})))
      = Some (int z)
      ∧ (91 ≤ z ≤ 100)%Z
      ∧ (int 100 ∉ reports (console (main ascii_only [1%positive]
                                      {[ inputFile := abcd ]}))
         ↔ ∃ z' : Z,
             int z' ∈ reports (console (main ascii_only [1%positive]
                                          {[ inputFile := abcd ]}))
             ∧ (90 < z' < 100)%Z).
Proof.
  split; [reflexivity |]. split; [discriminate |]. split; [reflexivity |].
  apply (last_report_is_above_90 ascii_only [1%positive]
           {[ inputFile := abcd ]} abcd);
    [reflexivity | discriminate | reflexivity].
Defined.

Lemma one_chunk_logs_100_witness :
  well_formed hello_world = true
  ∧ hello_world ≠ []
  ∧ ({[ inputFile := hello_world ]} : gmap string Buffer) !! inputFile
    = Some (Buffer_from hello_world)
  ∧ console (main ascii_only [] {[ inputFile := hello_world ]})
    = [LogProgress (int 100) (N.of_nat (occurrences LF hello_world));
       LogComplete; LogTotalLines (N.of_nat (occurrences LF hello_world));
       LogElapsed].
Proof.
  split; [reflexivity |]. split; [discriminate |]. split; [reflexivity |].
  apply (one_chunk_logs_100 ascii_only {[ inputFile := hello_world ]} hello_world);
    [reflexivity | discriminate | reflexivity].
Defined.

Lemma empty_input_run_witness :
  ({[ inputFile := [] ]} : gmap string Buffer) !! inputFile = Some []
  ∧ main ascii_only [1%positive] {[ inputFile := [] ]}
    = mkWorld (createWriteStream outputFile {[ inputFile := [] ]})
              [LogComplete; LogTotalLines 0; LogElapsed]
              (mkRunState 0 0 (Num 0) 0).
Proof.
  split; [reflexivity |].
  apply (empty_input_run ascii_only [1%positive] {[ inputFile := [] ]}).
  reflexivity.
Defined.

Lemma zero_total_logs_every_chunk_witness :
  totalSize (vars (mkWorld ∅ [] (mkRunState 0 0 (Num 0) 0))) = 0%N
  ∧ lastLoggedProgress (vars (mkWorld ∅ [] (mkRunState 0 0 (Num 0) 0))) ≠ NaN
  ∧ Forall (λ s : jsstring, s ≠ []) [abcd; abcd]
  ∧ reports (console (pipe ascii_only [abcd; abcd]
                        (mkWorld ∅ [] (mkRunState 0 0 (Num 0) 0))))
    = reports (console (mkWorld ∅ [] (mkRunState 0 0 (Num 0) 0)))
      ++ replicate (length [abcd; abcd]) Infinity
  ∧ ([abcd; abcd] ≠ [] →
     lastLoggedProgress
       (vars (pipe ascii_only [abcd; abcd]
                (mkWorld ∅ [] (mkRunState 0 0 (Num 0) 0))))
     = Infinity).
Proof.
  split; [reflexivity |]. split; [discriminate |].
  split; [repeat constructor; discriminate |].
  apply (zero_total_logs_every_chunk ascii_only [abcd; abcd]
           (mkWorld ∅ [] (mkRunState 0 0 (Num 0) 0)));
    [reflexivity | discriminate | repeat constructor; discriminate].
Defined.

Lemma ascii_input_is_mapped_byte_for_byte_witness :
  ({[ inputFile := hello_world ]} : gmap string Buffer) !! inputFile
  = Some hello_world
  ∧ ascii_bytes hello_world = true
  ∧ ∃ out,
      files (main ascii_only [6%positive] {[ inputFile := hello_world ]}) !! outputFile
      = Some out
      ∧ out = map upper_ascii hello_world
      ∧ length out = length hello_world
      ∧ occurrences LF out = occurrences LF hello_world.
Proof.
  split; [reflexivity |]. split; [reflexivity |].
  apply (ascii_input_is_mapped_byte_for_byte ascii_only [6%positive]
           {[ inputFile := hello_world ]} hello_world); reflexivity.
Defined.

Lemma second_run_changes_nothing_witness :
  ({[ inputFile := hello_world ]} : gmap string Buffer) !! inputFile
  = Some hello_world
  ∧ ascii_bytes hello_world = true
  ∧ files (main ascii_only [6%positive] {[ inputFile := hello_world ]}) !! outputFile
    = Some HELLO_WORLD
  ∧ ({[ inputFile := HELLO_WORLD ]} : gmap string Buffer) !! inputFile
    = Some HELLO_WORLD
  ∧ files (main ascii_only [] {[ inputFile := HELLO_WORLD ]}) !! outputFile
    = Some HELLO_WORLD.
Proof.
  split; [reflexivity |]. split; [reflexivity |].
  split; [vm_compute; reflexivity |]. split; [reflexivity |].
  apply (second_run_changes_nothing ascii_only [6%positive] []
           {[ inputFile := hello_world ]} {[ inputFile := HELLO_WORLD ]}
           hello_world HELLO_WORLD);
    [reflexivity | reflexivity | vm_compute; reflexivity | reflexivity].
Defined.

Lemma output_grows_chunk_by_chunk_witness :
  ({[ inputFile := abcd ]} : gmap string Buffer) !! inputFile = Some abcd
  ∧ files (after_chunks ascii_only 1 [1%positive] {[ inputFile := abcd ]}
             (N.of_nat (length abcd))) !! outputFile
    = Some (Buffer_from
              (toUpperCase ascii_only
                 (concat (take 1 (readChunks [1%positive] (toString abcd))))))
  ∧ ∃ rest,
      files (main ascii_only [1%positive] {[ inputFile := abcd ]}) !! outputFile
      = Some (Buffer_from
                (toUpperCase ascii_only
                   (concat (take 1 (readChunks [1%positive] (toString abcd)))))
              ++ rest).
Proof.
  split; [reflexivity |].
  apply (output_grows_chunk_by_chunk ascii_only 1 [1%positive]
           {[ inputFile := abcd ]} abcd).
  reflexivity.
Defined.

Lemma variables_never_go_back_witness :
  stat inputFile ({[ inputFile := abcd ]} : gmap string Buffer) = Some 4%N
  ∧ 0 ≤ 1
  ∧ totalSize (vars (after_chunks ascii_only 0 [1%positive] {[ inputFile := abcd ]} 4))
    = 4%N
  ∧ totalSize (vars (after_chunks ascii_only 1 [1%positive] {[ inputFile := abcd ]} 4))
    = 4%N
  ∧ (processedSize
       (vars (after_chunks ascii_only 0 [1%positive] {[ inputFile := abcd ]} 4))
     <= processedSize
          (vars (after_chunks ascii_only 1 [1%positive] {[ inputFile := abcd ]} 4)))%N
  ∧ (processedLines
       (vars (after_chunks ascii_only 0 [1%positive] {[ inputFile := abcd ]} 4))
     <= processedLines
          (vars (after_chunks ascii_only 1 [1%positive] {[ inputFile := abcd ]} 4)))%N
  ∧ ∃ l l',
      lastLoggedProgress
        (vars (after_chunks ascii_only 0 [1%positive] {[ inputFile := abcd ]} 4))
      = int l
      ∧ lastLoggedProgress
          (vars (after_chunks ascii_only 1 [1%positive] {[ inputFile := abcd ]} 4))
        = int l'
      ∧ (l ≤ l')%Z.
Proof.
  split; [reflexivity |]. split; [lia |].
  apply (variables_never_go_back ascii_only 0 1 [1%positive]
           {[ inputFile := abcd ]} 4%N); [reflexivity | lia].
Defined.

Lemma processedLines_counts_line_feed_bytes_witness :
  ({[ inputFile := hello_world ]} : gmap string Buffer) !! inputFile
  = Some hello_world
  ∧ processedLines (vars (main ascii_only [6%positive] {[ inputFile := hello_world ]}))
    = N.of_nat (occurrences LF hello_world)
  ∧ LogTotalLines (N.of_nat (occurrences LF hello_world))
    ∈ console (main ascii_only [6%positive] {[ inputFile := hello_world ]}).
Proof.
  split; [reflexivity |].
  apply (processedLines_counts_line_feed_bytes ascii_only [6%positive]
           {[ inputFile := hello_world ]} hello_world).
  reflexivity.
Defined.

Lemma small_chunks_log_every_ten_witness :
  well_formed (replicate 100 97%N) = true
  ∧ replicate 100 97%N ≠ []
  ∧ ({[ inputFile := replicate 100 97%N ]} : gmap string Buffer) !! inputFile
    = Some (Buffer_from (replicate 100 97%N))
  ∧ (Z.of_nat (length (Buffer_from (replicate 100 97%N))) < 2 ^ 53)%Z
  ∧ Forall (λ s, 100 * length (Buffer_from s)
                 ≤ length (Buffer_from (replicate 100 97%N)))
           (readChunks (replicate 99 1%positive) (replicate 100 97%N))
  ∧ reports (console (main ascii_only (replicate 99 1%positive)
                        {[ inputFile := replicate 100 97%N ]}))
    = map int [10; 20; 30; 40; 50; 60; 70; 80; 90; 100]%Z.
Proof.
  assert (Hsmall :
    Forall (λ s, 100 * length (Buffer_from s)
                 ≤ length (Buffer_from (replicate 100 97%N)))
           (readChunks (replicate 99 1%positive) (replicate 100 97%N))).
  { apply (bool_decide_unpack _). vm_compute. reflexivity. }
  split; [reflexivity |]. split; [discriminate |]. split; [reflexivity |].
  split; [reflexivity |]. split; [exact Hsmall |].
  apply (small_chunks_log_every_ten ascii_only (replicate 99 1%positive)
           {[ inputFile := replicate 100 97%N ]} (replicate 100 97%N));
    [reflexivity | discriminate | reflexivity | reflexivity | exact Hsmall].
Defined.
